(** * refineTemplateLiteral: a delimiter-joined composite string validator

    Shallow embedding of [packages/zod/src/v4/core/refine-template-literal.ts]
    and of the demo configuration in [play.ts].

    JavaScript strings are sequences of UTF-16 code units and are modelled as
    such, arrays by [list], and the calls that leave the module (the segment
    schemas' [safeParse] and the caller's [check]) are recorded in a trace so
    that "is invoked" and "in order" can be stated. *)

From Stdlib Require Import Strings.Byte List NArith ZArith Bool Arith Lia.
Import ListNotations.
Set Warnings "-register-all".

(** ** JavaScript strings *)

(** A UTF-16 code unit, a number below [2^16]. *)
Definition codeUnit : Set := N.
Bind Scope N_scope with codeUnit.

Module JsString.

(** A string value: a finite sequence of code units. *)
Inductive string : Set :=
| EmptyString
| String (c : codeUnit) (s : string).

(** [s.length] *)
Fixpoint length (s : string) : nat :=
  match s with
  | EmptyString => 0
  | String _ s' => S (length s')
  end.

(** [s1 + s2] *)
Fixpoint append (s1 s2 : string) : string :=
  match s1 with
  | EmptyString => s2
  | String c s1' => String c (append s1' s2)
  end.

(** [s1 === s2] *)
Fixpoint eqb (s1 s2 : string) : bool :=
  match s1, s2 with
  | EmptyString, EmptyString => true
  | String c1 s1', String c2 s2' => (c1 =? c2)%N && eqb s1' s2'
  | _, _ => false
  end.


(** The code units of [s] from index [n] on, at most [m] of them. *)
Fixpoint substring (n m : nat) (s : string) : string :=
  match s with
  | EmptyString => EmptyString
  | String c s' =>
      match n with
      | S n' => substring n' m s'
      | O =>
          match m with
          | O => EmptyString
          | S m' => String c (substring 0 m' s')
          end
      end
  end.

(** [s2.startsWith(s1)] *)
Fixpoint prefix (s1 s2 : string) {struct s2} : bool :=
  match s1, s2 with
  | EmptyString, _ => true
  | String _ _, EmptyString => false
  | String a s1', String b s2' => if (a =? b)%N then prefix s1' s2' else false
  end.

(** [StringIndexOf(s2, s1, n)]: the least index from [n] on at which [s1]
    occurs in [s2]. *)
Fixpoint index (n : nat) (s1 s2 : string) : option nat :=
  match s2 with
  | EmptyString =>
      match n, s1 with
      | O, EmptyString => Some O
      | _, _ => None
      end
  | String _ s2' =>
      match n with
      | O =>
          if prefix s1 s2 then Some O
          else
            match index O s1 s2' with
            | Some k => Some (S k)
            | None => None
            end
      | S n' =>
          match index n' s1 s2' with
          | Some k => Some (S k)
          | None => None
          end
      end
  end.

(** [ls.join(sep)] *)
Fixpoint concat (sep : string) (ls : list string) : string :=
  match ls with
  | [] => EmptyString
  | x :: xs =>
      match xs with
      | [] => x
      | _ :: _ => append x (append sep (concat sep xs))
      end
  end.

(** The code units of a string, in their order. *)
Fixpoint codeUnits (s : string) : list codeUnit :=
  match s with
  | EmptyString => []
  | String c s' => c :: codeUnits s'
  end.

(** String literals are written with ASCII characters, one code unit each. *)
Fixpoint of_bytes (bs : list Byte.byte) : option string :=
  match bs with
  | [] => Some EmptyString
  | b :: bs' =>
      if (Byte.to_N b <? 128)%N then option_map (String (Byte.to_N b)) (of_bytes bs')
      else None
  end.

Fixpoint to_bytes (s : string) : option (list Byte.byte) :=
  match s with
  | EmptyString => Some []
  | String c s' =>
      match (if (c <? 128)%N then Byte.of_N c else None), to_bytes s' with
      | Some b, Some bs => Some (b :: bs)
      | _, _ => None
      end
  end.

End JsString.
Import JsString.
Import List.

Declare Scope js_scope.
Delimit Scope js_scope with js.
Bind Scope js_scope with string.
String Notation string of_bytes to_bytes : js_scope.
Infix "++" := append (right associativity, at level 60) : js_scope.
Infix "=?" := eqb (at level 70) : js_scope.
Open Scope js_scope.
Open Scope list_scope.



(** ** Data model *)

(** JavaScript values that flow through the combinator. *)
Inductive value : Type :=
| VUndefined
| VStr (s : string)
| VNum (n : Z)
| VBool (b : bool)
| VArr (elems : list value).

(** One issue of a failed parse: its code, the configured message (if any)
    and the configured path. *)
Record issue : Type := mkIssue {
  issue_code : string;
  issue_message : option string;
  issue_path : list string
}.

(** [ZodSafeParseResult]: [{success: true, data}] or [{success: false, error}]. *)
Inductive ZodSafeParseResult : Type :=
| Success (output : value)
| Failure (issues : list issue).

(** [x.success] *)
Definition success (x : ZodSafeParseResult) : bool :=
  match x with
  | Success _ => true
  | Failure _ => false
  end.

(** [r.data]; the property is absent on a failed result. *)
Definition data (r : ZodSafeParseResult) : value :=
  match r with
  | Success v => v
  | Failure _ => VUndefined
  end.

(** A segment schema ([core.$ZodTemplateLiteralPart & ZodType]): the shape it
    contributes to a template literal, and its own [safeParse]. *)
Record ZodType : Type := mkZodType {
  pattern : string -> bool;
  safeParse : value -> ZodSafeParseResult
}.

(** [core.$ZodTemplateLiteralPart]: a literal piece of text or a schema. *)
Inductive TemplateLiteralPart : Type :=
| PartLiteral (text : string)
| PartSchema (schema : ZodType).

(** [templateLiteralParams] and [checkParams] as far as they reach the issues. *)
Record TemplateLiteralParams : Type := mkTemplateLiteralParams {
  tl_message : option string
}.

Record CustomParams : Type := mkCustomParams {
  cp_message : option string;
  cp_path : list string
}.

(** ** Effects: a call trace and exceptions *)

Inductive event : Type :=
| EvSafeParse (i : nat) (input : value)
| EvCheck (values : list value).

Inductive completion (A : Type) : Type :=
| Normal (a : A)
| Thrown (e : value).
Arguments Normal {A} a.
Arguments Thrown {A} e.

Definition M (A : Type) : Type := (list event * completion A)%type.

Definition ret {A : Type} (a : A) : M A := ([], Normal a).

Definition bind {A B : Type} (m : M A) (f : A -> M B) : M B :=
  match m with
  | (t1, Normal a) => let (t2, c) := f a in (t1 ++ t2, c)
  | (t1, Thrown e) => (t1, Thrown e)
  end.

Notation "x <- m ;; k" := (bind m (fun x => k))
  (at level 61, m at next level, right associativity).

Definition trace {A : Type} (m : M A) : list event := fst m.
Definition result {A : Type} (m : M A) : completion A := snd m.

(** [schema.safeParse(input)] for the schema at position [i]. *)
Definition callSafeParse (i : nat) (schema : ZodType) (input : value)
  : M ZodSafeParseResult :=
  ([EvSafeParse i input], Normal (safeParse schema input)).

(** [check(values)]; the caller's predicate may throw. *)
Definition callCheck (check : list value -> completion bool) (values : list value)
  : M bool :=
  ([EvCheck values], check values).

(** ** JavaScript built-ins used by the module *)

(** [arr[i]] on an array of strings: [undefined] out of range. *)
Definition array_get (arr : list string) (i : nat) : value :=
  match nth_error arr i with
  | Some s => VStr s
  | None => VUndefined
  end.

(** [arr.map((x, i) => f(x, i))], the callback run from index [i] upwards. *)
Fixpoint array_map_from {A B : Type} (f : A -> nat -> M B) (i : nat) (arr : list A)
  : M (list B) :=
  match arr with
  | [] => ret []
  | x :: rest =>
      y <- f x i ;;
      ys <- array_map_from f (S i) rest ;;
      ret (y :: ys)
  end.

Definition array_map {A B : Type} (f : A -> nat -> M B) (arr : list A) : M (list B) :=
  array_map_from f 0 arr.

(** The loop of [String.prototype.split] (ECMAScript, steps 13 to 18):
    [i] is the start of the current piece and [index i sep str] is
    [StringIndexOf(str, sep, i)]. At most [length str] separators fit. *)
Fixpoint split_loop (fuel : nat) (str sep : string) (i : nat) (substrings : list string)
  : list string :=
  match fuel with
  | O => substrings ++ [substring i (JsString.length str - i) str]
  | S fuel' =>
      match index i sep str with
      | Some j =>
          split_loop fuel' str sep (j + JsString.length sep)
                     (substrings ++ [substring i (j - i) str])
      | None => substrings ++ [substring i (JsString.length str - i) str]
      end
  end.

(** [str.split(sep)] with a string separator and no limit. *)
Definition split (str sep : string) : list string :=
  if (sep =? "")%js then
    map (fun c => String c "") (codeUnits str)
  else if (str =? "")%js then [str]
  else split_loop (JsString.length str) str sep 0 [].

(** ** The validation framework the module is written against *)

(** All ways of cutting [s] into a front and a back piece. *)
Fixpoint splits (s : string) : list (string * string) :=
  ("", s) ::
  match s with
  | EmptyString => []
  | String c s' => map (fun ab => (String c (fst ab), snd ab)) (splits s')
  end.

(** [s] without its leading [p], when it starts with [p]. *)
Fixpoint stripPrefix (p s : string) : option string :=
  match p, s with
  | EmptyString, _ => Some s
  | String a p', String b s' => if (a =? b)%N then stripPrefix p' s' else None
  | String _ _, EmptyString => None
  end.

(** Modelled from the spec: the framework's "combined literal shape"
    matcher behind [z.templateLiteral] (section 4.2), which is not part of the
    sources at hand. The input must be a concatenation of segment-shaped
    pieces, one per schema part and each accepted by that schema's
    [pattern], with the exact text of every literal part between them. *)
Fixpoint matchesTemplate (parts : list TemplateLiteralPart) (s : string) : bool :=
  match parts with
  | [] => (s =? "")%js
  | PartLiteral text :: rest =>
      match stripPrefix text s with
      | Some s' => matchesTemplate rest s'
      | None => false
      end
  | PartSchema schema :: rest =>
      existsb (fun ab => pattern schema (fst ab) && matchesTemplate rest (snd ab))
              (splits s)
  end.

Definition invalidFormatIssue (params : TemplateLiteralParams) : issue :=
  mkIssue "invalid_format" (tl_message params) [].

Definition customIssue (params : CustomParams) : issue :=
  mkIssue "custom" (cp_message params) (cp_path params).

(** Modelled from the spec: [z.templateLiteral(parts, params)] applied to a
    string (sections 4.2 and 7); the framework's template-literal schema is
    not part of the sources at hand. A string of the wrong shape is a
    structural mismatch reported once; a string of the right shape is passed
    on as it is. *)
Definition templateLiteral (parts : list TemplateLiteralPart)
    (params : TemplateLiteralParams) (input : string) : ZodSafeParseResult :=
  if matchesTemplate parts input then Success (VStr input)
  else Failure [invalidFormatIssue params].

(** Modelled from the spec: the framework's [schema.refine(fn, params)]
    (state machine of section 4.5, and section 7), which is not part of the
    sources at hand. A failure of the refined schema is terminal and [fn] is
    not run. Otherwise [fn] is run on the parsed string: what it throws is not
    caught, [false] fails the parse with the one error configured by [params],
    and [true] leaves the refined schema's own output in place, since [fn]
    hands back a boolean and nothing else. *)
Definition refine (base : string -> ZodSafeParseResult) (fn : string -> M bool)
    (params : CustomParams) (input : string) : M ZodSafeParseResult :=
  match base input with
  | Failure issues => ret (Failure issues)
  | Success output =>
      ok <- fn input ;;
      ret (if ok : bool then Success output else Failure [customIssue params])
  end.

(** ** The module *)

(** The loop of [insertDelimiterIntoTuple]: [rest] holds [lst[i]], [lst[i+1]], ... *)
Fixpoint insertDelimiter_loop {T : Type} (rest : list T) (delim : T) (out : list T)
  : list T :=
  match rest with
  | [] => out
  | x :: rest' => insertDelimiter_loop rest' delim (out ++ [delim] ++ [x])
  end.

(** Type-preserving version of [array.join]. *)
Definition insertDelimiterIntoTuple {T : Type} (lst : list T) (delim : T) : list T :=
  match lst with
  | [] => []
  | first :: rest => insertDelimiter_loop rest delim [first]
  end.

(** Type-preserving version of [str.split]. *)
Definition splitIntoTemplateLiterals (str delimiter : string) : list string :=
  split str delimiter.

(** Type-preserving version of mapping [safeParse] over an array. *)
Definition mapSafeParse (parts : list ZodType) (unparsedValues : list string)
  : M (list ZodSafeParseResult) :=
  array_map (fun schema i => callSafeParse i schema (array_get unparsedValues i)) parts.

(** MAIN FUNCTION. The result is the composite schema's [safeParse] on strings. *)
Definition refineTemplateLiteral (parts : list ZodType) (delim : string)
    (check : list value -> completion bool)
    (templateLiteralParams : TemplateLiteralParams) (checkParams : CustomParams)
  : string -> M ZodSafeParseResult :=
  let partsWithSeparators :=
    insertDelimiterIntoTuple (map PartSchema parts) (PartLiteral delim) in
  refine (templateLiteral partsWithSeparators templateLiteralParams)
    (fun compositeValue =>
       let unparsedValues := splitIntoTemplateLiterals compositeValue delim in
       results <- mapSafeParse parts unparsedValues ;;
       if negb (forallb success results) then ret false
       else
         let data := map data results in
         callCheck check data)
    checkParams.

(** ** Segment schemas and predicates of [play.ts] and of the test cases *)

Definition is_digit (c : codeUnit) : bool := (48 <=? c)%N && (c <=? 57)%N.

Fixpoint all_digits (s : string) : bool :=
  match s with
  | EmptyString => true
  | String c s' => is_digit c && all_digits s'
  end.

(** [\d+] *)
Definition digits1 (s : string) : bool :=
  match s with
  | EmptyString => false
  | String _ _ => all_digits s
  end.

(** [s] without a leading minus sign. *)
Definition stripMinus (s : string) : string :=
  match s with
  | EmptyString => s
  | String c s' => if (c =? 45)%N then s' else s
  end.

(** What is left of [s] behind its leading digits. *)
Fixpoint afterDigits (s : string) : string :=
  match s with
  | EmptyString => EmptyString
  | String c s' => if is_digit c then afterDigits s' else s
  end.

(** [-?\d+], the shape of an integer schema in a template literal. *)
Definition integerShape (s : string) : bool := digits1 (stripMinus s).

(** [-?\d+(?:\.\d+)?], the shape of a number schema in a template literal. *)
Definition numberShape (s : string) : bool :=
  match stripMinus s with
  | EmptyString => false
  | String c _ as unsigned =>
      is_digit c
      && match afterDigits unsigned with
         | EmptyString => true
         | String d fraction => (d =? 46)%N && digits1 fraction
         end
  end.

(** The checks that [play.ts] chains onto its number schemas; each one
    answers a number with an issue or with nothing. *)
Definition safeInteger (n : Z) : option issue :=
  if (9007199254740991 <? n)%Z then Some (mkIssue "too_big" None [])
  else if (n <? -9007199254740991)%Z then Some (mkIssue "too_small" None [])
  else None.

Definition positive (n : Z) : option issue :=
  if (n <=? 0)%Z then Some (mkIssue "too_small" None []) else None.

Definition max (maximum : Z) (n : Z) : option issue :=
  if (maximum <? n)%Z then Some (mkIssue "too_big" None []) else None.

(** Modelled from the spec: a segment validator (section 3) that is one of
    the framework's number schemas, [z.int()] or [z.number()] with checks
    chained on; the framework is not part of the sources at hand. A number
    schema does not coerce: a value that is not a number, and so every string
    and [undefined], is a type error. A number is run through all the checks
    and accepted when none of them objects. Numbers are the integers of
    [VNum]. *)
Definition numberSchema (shape : string -> bool) (checks : list (Z -> option issue))
  : ZodType :=
  {| pattern := shape;
     safeParse := fun v =>
       match v with
       | VNum n =>
           match flat_map (fun chk => match chk n with
                                      | Some i => [i]
                                      | None => []
                                      end) checks with
           | [] => Success (VNum n)
           | issues => Failure issues
           end
       | _ => Failure [mkIssue "invalid_type" None []]
       end |}.

(** [z.int().positive()] and [z.number().positive().max(12)] of [play.ts]. *)
Definition DaySchema : ZodType := numberSchema integerShape [safeInteger; positive].
Definition MonthSchema : ZodType := numberSchema numberShape [positive; max 12].

(** [verify] of [play.ts]; its argument type is [readonly [number, number]]. *)
Definition verify (vals : list value) : completion bool :=
  match vals with
  | [VNum day; VNum month] =>
      if existsb (Z.eqb month) [4; 6; 9; 11]%Z then Normal (day <=? 30)%Z
      else if (month =? 2)%Z then Normal (day <=? 29)%Z
      else Normal (day <=? 31)%Z
  | _ => Normal false
  end.

(** [DateSchema] of [play.ts]. *)
Definition DateSchema : string -> M ZodSafeParseResult :=
  refineTemplateLiteral [DaySchema; MonthSchema] "," verify
    (mkTemplateLiteralParams None) (mkCustomParams (Some "Verify failed!") []).

(** Modelled from the spec: the [String] segment validator of scenarios 2 to 4,
    the framework's [z.string()]: any string is of its shape and is passed on
    unchanged, anything else is a type error. *)
Definition zString : ZodType :=
  {| pattern := fun _ => true;
     safeParse := fun v =>
       match v with
       | VStr s => Success (VStr s)
       | _ => Failure [mkIssue "invalid_type" None []]
       end |}.

(** The predicates [() => true] and [() => { throw ... }] of the test cases
    2 and 5. *)
Definition alwaysTrue (vals : list value) : completion bool := Normal true.

Definition alwaysThrows (vals : list value) : completion bool :=
  Thrown (VStr "Custom validation error").

(** [Boolean(v)] *)
Definition truthy (v : value) : bool :=
  match v with
  | VUndefined => false
  | VStr s => negb (s =? "")
  | VNum n => negb (n =? 0)%Z
  | VBool b => b
  | VArr _ => true
  end.

(** [([a, b, c]) => Boolean(a) && Boolean(b) && Boolean(c)] of test case 6;
    an element that the array does not have is [undefined]. *)
Definition allNonEmpty (vals : list value) : completion bool :=
  let a := nth 0 vals VUndefined in
  let b := nth 1 vals VUndefined in
  let c := nth 2 vals VUndefined in
  Normal (truthy a && truthy b && truthy c).

Definition noParams : TemplateLiteralParams := mkTemplateLiteralParams None.
Definition noCheckParams : CustomParams := mkCustomParams None [].

(** ** The type-level companions of the module

    The conditional types of the module compute on tuple types and on string
    literal types; they are embedded as functions on lists and on strings.
    Instantiation limits of the type checker are not modelled. *)

(** A tuple type is mutable, [[A, B]], or read-only, [readonly [A, B]]. *)
Inductive Mutability : Set := Mutable | Readonly.

(** Type-level equivalent of [array.join]; [None] is [never]. The three
    patterns [[]], [[infer First]] and [[infer First, ...infer Rest]] are
    mutable tuples, so a read-only tuple, which is what the function's
    [const Parts extends readonly T[]] infers at a call, matches none of them;
    [Rest] is inferred from a mutable pattern and is mutable again. *)
Fixpoint InsertDelimiterIntoTuple {T : Type} (m : Mutability) (Parts : list T)
    (Delimiter : T) : option (list T) :=
  match m with
  | Readonly => None
  | Mutable =>
      match Parts with
      | [] => Some []
      | First :: Rest =>
          match Rest with
          | [] => Some [First]
          | _ :: _ =>
              match InsertDelimiterIntoTuple Mutable Rest Delimiter with
              | Some interleaved => Some (First :: Delimiter :: interleaved)
              | None => None
              end
          end
      end
  end.

(** The element types that the mapped tuple types are made of:
    [ZodSafeParseResult<schema>] and [z.output<schema>]. *)
Inductive ElementType : Type :=
| SafeParseResultOf (schema : ZodType)
| OutputOf (schema : ZodType).

(** Type-level equivalent of mapping [z.output] over an array. *)
Fixpoint MapOutput (Parts : list ZodType) : list ElementType :=
  match Parts with
  | [] => []
  | First :: Rest =>
      match Rest with
      | [] => [OutputOf First]
      | _ :: _ => OutputOf First :: MapOutput Rest
      end
  end.

(** Type-level equivalent of mapping [safeParse] over an array; behind the
    first element the source continues with [MapOutput]. *)
Definition MapSafeParse (Parts : list ZodType) : list ElementType :=
  match Parts with
  | [] => []
  | First :: Rest =>
      match Rest with
      | [] => [SafeParseResultOf First]
      | _ :: _ => SafeParseResultOf First :: MapOutput Rest
      end
  end.

(** helper: split a non-empty string into its characters *)
Fixpoint StringToCharTuple (S : string) : list string :=
  match S with
  | EmptyString => []
  | String First Rest => String First "" :: StringToCharTuple Rest
  end.

(** [S extends `${infer Head}${D}${infer Tail}`] for a literal [D]: the
    type checker looks for the first place where [D] occurs in [S]; [Head] is
    what stands in front of it and [Tail] what follows. *)
Fixpoint inferHeadTail (D S : string) : option (string * string) :=
  match stripPrefix D S with
  | Some Tail => Some ("", Tail)
  | None =>
      match S with
      | EmptyString => None
      | String c S' =>
          match inferHeadTail D S' with
          | Some (Head, Tail) => Some (String c Head, Tail)
          | None => None
          end
      end
  end.

(** Type-level equivalent of [str.split], unfolded at most [depth] times
    behind the first one. *)
Fixpoint SplitString_at (depth : nat) (S D : string) : list string :=
  if (D =? "")%js then
    if (S =? "")%js then [] else StringToCharTuple S
  else if (S =? "")%js then [""]
  else
    match inferHeadTail D S with
    | Some (Head, Tail) =>
        Head :: match depth with
                | O => [Tail]
                | Datatypes.S depth' => SplitString_at depth' Tail D
                end
    | None => [S]
    end.

(** [SplitString<S, D>]: every unfolding consumes a non-empty delimiter, so
    [JsString.length S] unfoldings are never used up. *)
Definition SplitString (S D : string) : list string :=
  SplitString_at (JsString.length S) S D.

(** ** Vocabulary of the statements *)

(** [sep] occurs somewhere in [str]. *)
Definition occursIn (sep str : string) : Prop :=
  exists p q, str = (p ++ sep ++ q)%js.

(** The only place where [sep] occurs in [str] is its very end. *)
Definition occursOnlyAtEnd (sep str : string) : Prop :=
  forall p q, str = (p ++ sep ++ q)%js -> q = "".

(** Raw texts that a join with [delim] keeps apart: the last one is free of
    [delim], and [delim] appended to any other one occurs there only as that
    appended copy (so no occurrence starts inside the text). *)
Fixpoint separable (delim : string) (texts : list string) : Prop :=
  match texts with
  | [] => True
  | [t] => ~ occursIn delim t
  | t :: rest => occursOnlyAtEnd delim (t ++ delim)%js /\ separable delim rest
  end.

(** The input has the literal shape that the composed template asks for. *)
Definition structurallyMatches (parts : list ZodType) (delim input : string) : bool :=
  matchesTemplate (insertDelimiterIntoTuple (map PartSchema parts) (PartLiteral delim))
                  input.

(** What the schema at each position, counted from [i], answers on the piece
    at its own position. *)
Fixpoint outcomes_from (i : nat) (parts : list ZodType) (unparsedValues : list string)
  : list ZodSafeParseResult :=
  match parts with
  | [] => []
  | schema :: rest =>
      safeParse schema (array_get unparsedValues i)
        :: outcomes_from (S i) rest unparsedValues
  end.

Definition segmentOutcomes (parts : list ZodType) (delim input : string)
  : list ZodSafeParseResult :=
  outcomes_from 0 parts (split input delim).

(** The [safeParse] calls on positions [i], [i+1], ..., [i+n-1], in this order. *)
Definition safeParseEvents (i n : nat) (unparsedValues : list string) : list event :=
  map (fun k => EvSafeParse k (array_get unparsedValues k)) (seq i n).

(** What each schema decodes from its own raw text. *)
Fixpoint decodedValues (parts : list ZodType) (texts : list string) : list value :=
  match parts, texts with
  | schema :: parts', t :: texts' =>
      data (safeParse schema (VStr t)) :: decodedValues parts' texts'
  | _, _ => []
  end.

(** Each raw text has the shape of its schema and is accepted by it. *)
Fixpoint eachMatches (parts : list ZodType) (texts : list string) : Prop :=
  match parts, texts with
  | [], [] => True
  | schema :: parts', t :: texts' =>
      pattern schema t = true /\ success (safeParse schema (VStr t)) = true
      /\ eachMatches parts' texts'
  | _, _ => False
  end.

(** * Properties *)

(** ** Strings *)

Section StringFacts.

Local Open Scope js_scope.

Lemma string_eqb_spec (s1 s2 : string) : reflect (s1 = s2) (s1 =? s2).
Proof.
  revert s2; induction s1 as [|c1 s1 IH]; intros [|c2 s2]; cbn [eqb];
    try (constructor; congruence).
  destruct (N.eqb_spec c1 c2) as [->|Hc]; cbn [andb].
  - destruct (IH s2) as [->|Hs]; constructor; congruence.
  - constructor; congruence.
Qed.

Lemma string_eqb_eq (s1 s2 : string) : (s1 =? s2) = true <-> s1 = s2.
Proof. destruct (string_eqb_spec s1 s2); split; congruence. Qed.

Lemma string_app_assoc (a b c : string) : (a ++ b) ++ c = a ++ b ++ c.
Proof. induction a as [|x a IH]; simpl; [reflexivity | now rewrite IH]. Qed.

Lemma string_app_nil_r (a : string) : a ++ "" = a.
Proof. induction a as [|x a IH]; simpl; [reflexivity | now rewrite IH]. Qed.

Lemma string_app_length (a b : string) :
  JsString.length (a ++ b) = (JsString.length a + JsString.length b)%nat.
Proof. induction a as [|x a IH]; simpl; [reflexivity | now rewrite IH]. Qed.

Lemma string_length_zero (a : string) : JsString.length a = 0%nat -> a = "".
Proof. destruct a; simpl; [reflexivity | discriminate]. Qed.

Lemma string_app_inv_head (a b c : string) : a ++ b = a ++ c -> b = c.
Proof.
  induction a as [|x a IH]; simpl; intros H; [exact H | injection H as H; auto].
Qed.

Lemma substring_whole (s : string) : substring 0 (JsString.length s) s = s.
Proof. induction s as [|x s IH]; simpl; [reflexivity | now rewrite IH]. Qed.

Lemma substring_front (a b : string) : substring 0 (JsString.length a) (a ++ b) = a.
Proof.
  induction a as [|x a IH]; simpl.
  - destruct b; reflexivity.
  - now rewrite IH.
Qed.

Lemma substring_skip (a b : string) (i n : nat) :
  substring (JsString.length a + i) n (a ++ b) = substring i n b.
Proof. induction a as [|x a IH]; simpl; [reflexivity | exact IH]. Qed.

Lemma index_skip (a b sep : string) (i : nat) :
  index (JsString.length a + i) sep (a ++ b) =
  option_map (Nat.add (JsString.length a)) (index i sep b).
Proof.
  induction a as [|x a IH]; simpl.
  - destruct (index i sep b); reflexivity.
  - rewrite IH. destruct (index i sep b); reflexivity.
Qed.

Lemma prefix_iff (p s : string) : prefix p s = true <-> exists t, s = p ++ t.
Proof.
  revert p; induction s as [|b s IH]; intros [|a p]; simpl.
  - split; [exists ""; reflexivity | reflexivity].
  - split; [discriminate | intros [t H]; discriminate].
  - split; [exists (String b s); reflexivity | reflexivity].
  - destruct (N.eqb_spec a b) as [->|Hab].
    + rewrite IH. split; intros [t H]; exists t; [now rewrite H | now injection H].
    + split; [discriminate | intros [t H]; injection H as H1 H2; congruence].
Qed.

Lemma prefix_shorter (p x y : string) :
  prefix p (x ++ y) = true -> (JsString.length p <= JsString.length x)%nat ->
  exists t, x = p ++ t.
Proof.
  revert x; induction p as [|a p IH]; intros x Hp Hlen.
  - exists x; reflexivity.
  - destruct x as [|b x]; simpl in Hlen; [lia|].
    simpl in Hp. destruct (N.eqb_spec a b) as [->|]; [|discriminate].
    destruct (IH x Hp ltac:(lia)) as [t ->]. exists t; reflexivity.
Qed.

End StringFacts.

(** ** Searching for the separator *)

Section IndexFacts.

Local Open Scope js_scope.

Lemma index_zero_cons (sep : string) (b : codeUnit) (s : string) :
  index 0 sep (String b s) =
  if prefix sep (String b s) then Some 0%nat else option_map S (index 0 sep s).
Proof. reflexivity. Qed.

Lemma occursOnlyAtEnd_self (sep : string) : occursOnlyAtEnd sep sep.
Proof.
  intros p q H. apply (f_equal JsString.length) in H.
  rewrite !string_app_length in H. apply string_length_zero. lia.
Qed.

Lemma occursOnlyAtEnd_tail (sep : string) (c : codeUnit) (a : string) :
  occursOnlyAtEnd sep (String c a ++ sep) -> occursOnlyAtEnd sep (a ++ sep).
Proof.
  intros H p q Hpq. apply (H (String c p) q). simpl. now rewrite Hpq.
Qed.

(** A hit of [index] is the first occurrence. *)
Lemma index_first (sep s : string) (j : nat) :
  index 0 sep s = Some j ->
  exists a rest,
    s = a ++ sep ++ rest /\ JsString.length a = j /\ occursOnlyAtEnd sep (a ++ sep).
Proof.
  revert j; induction s as [|b s IH]; intros j H.
  - destruct sep; simpl in H; [|discriminate]. injection H as <-.
    exists "", "". repeat split. apply occursOnlyAtEnd_self.
  - rewrite index_zero_cons in H.
    destruct (prefix sep (String b s)) eqn:Hp.
    + injection H as <-. apply prefix_iff in Hp as [t Ht].
      exists "", t. repeat split; [exact Ht | apply occursOnlyAtEnd_self].
    + destruct (index 0 sep s) as [j'|] eqn:Hi; [|discriminate].
      injection H as <-.
      destruct (IH j' eq_refl) as (a & rest & Hs & Hlen & Hend).
      exists (String b a), rest. repeat split.
      * simpl. now rewrite Hs.
      * simpl. now rewrite Hlen.
      * intros [|c p] q Hpq.
        -- exfalso. simpl in Hpq.
           assert (prefix sep (String b s) = true) as Hp'.
           { apply prefix_iff. exists (q ++ rest).
             rewrite Hs, <- (string_app_assoc a sep rest).
             change (String b ((a ++ sep) ++ rest)) with (String b (a ++ sep) ++ rest).
             rewrite Hpq. apply string_app_assoc. }
           congruence.
        -- simpl in Hpq. injection Hpq as _ Hpq. exact (Hend p q Hpq).
Qed.

(** Where the first occurrence is, [index] finds it. *)
Lemma index_of_first (sep a rest : string) :
  sep <> "" -> occursOnlyAtEnd sep (a ++ sep) ->
  index 0 sep (a ++ sep ++ rest) = Some (JsString.length a).
Proof.
  intros Hsep. induction a as [|c a IH]; intros Hend.
  - simpl. destruct sep as [|x sep]; [contradiction|].
    change (String x sep ++ rest) with (String x (sep ++ rest)).
    rewrite index_zero_cons.
    replace (prefix (String x sep) (String x (sep ++ rest))) with true; [reflexivity|].
    symmetry. apply prefix_iff. exists rest. reflexivity.
  - change (String c a ++ sep ++ rest) with (String c (a ++ sep ++ rest)).
    rewrite index_zero_cons.
    destruct (prefix sep (String c (a ++ sep ++ rest))) eqn:Hp.
    + exfalso.
      change (String c (a ++ sep ++ rest)) with (String c a ++ sep ++ rest) in Hp.
      rewrite <- string_app_assoc in Hp.
      apply prefix_shorter in Hp as [t Ht].
      * pose proof (Hend "" t Ht) as ->.
        apply (f_equal JsString.length) in Ht.
        rewrite !string_app_length in Ht. simpl in Ht. lia.
      * rewrite string_app_length. simpl. lia.
    + rewrite (IH (occursOnlyAtEnd_tail _ _ _ Hend)). reflexivity.
Qed.

Lemma index_none_of_absent (sep s : string) :
  ~ occursIn sep s -> index 0 sep s = None.
Proof.
  intros Habs. destruct (index 0 sep s) as [j|] eqn:Hi; [|reflexivity].
  exfalso. apply Habs.
  destruct (index_first _ _ _ Hi) as (a & rest & Hs & _ & _).
  now exists a, rest.
Qed.

Lemma absent_of_index_none (sep s : string) :
  index 0 sep s = None -> ~ occursIn sep s.
Proof.
  intros Hi (p & q & Hs). subst s. revert Hi.
  induction p as [|c p IH]; intros Hi.
  - simpl in Hi. destruct sep as [|x sep].
    + destruct q; simpl in Hi; discriminate.
    + change (String x sep ++ q) with (String x (sep ++ q)) in Hi.
      rewrite index_zero_cons in Hi.
      replace (prefix (String x sep) (String x (sep ++ q))) with true in Hi;
        [discriminate|].
      symmetry. apply prefix_iff. exists q. reflexivity.
  - change (String c p ++ sep ++ q) with (String c (p ++ sep ++ q)) in Hi.
    rewrite index_zero_cons in Hi.
    destruct (prefix sep (String c (p ++ sep ++ q))); [discriminate|].
    destruct (index 0 sep (p ++ sep ++ q)); [discriminate|]. now apply IH.
Qed.

Lemma onlyAtEnd_of_index (sep t : string) :
  index 0 sep (t ++ sep) = Some (JsString.length t) -> occursOnlyAtEnd sep (t ++ sep).
Proof.
  intros Hi. destruct (index_first _ _ _ Hi) as (a & rest & Hs & Hlen & Hend).
  assert (rest = "") as ->.
  { apply (f_equal JsString.length) in Hs. rewrite !string_app_length in Hs.
    apply string_length_zero. lia. }
  rewrite string_app_nil_r in Hs. now rewrite Hs.
Qed.

End IndexFacts.

(** ** The split loop *)

Section SplitFacts.

Local Open Scope js_scope.

Lemma substring_from (pre cur : string) :
  substring (JsString.length pre) (JsString.length (pre ++ cur) - JsString.length pre)
            (pre ++ cur) = cur.
Proof.
  rewrite string_app_length.
  replace (JsString.length pre + JsString.length cur - JsString.length pre)%nat
    with (JsString.length cur) by lia.
  rewrite <- (Nat.add_0_r (JsString.length pre)) at 1.
  rewrite substring_skip. apply substring_whole.
Qed.

Lemma substring_piece (pre a rest : string) :
  substring (JsString.length pre) (JsString.length pre + JsString.length a - JsString.length pre)
            (pre ++ a ++ rest) = a.
Proof.
  replace (JsString.length pre + JsString.length a - JsString.length pre)%nat
    with (JsString.length a) by lia.
  rewrite <- (Nat.add_0_r (JsString.length pre)) at 1.
  rewrite substring_skip. apply substring_front.
Qed.

(** The loop only looks at what lies behind [i]. *)
Lemma split_loop_shift (fuel : nat) (sep : string) :
  forall (pre cur : string) (acc : list string),
    split_loop fuel (pre ++ cur) sep (JsString.length pre) acc =
    (acc ++ split_loop fuel cur sep 0 [])%list.
Proof.
  induction fuel as [|fuel IH]; intros pre cur acc.
  - cbn [split_loop]. rewrite substring_from.
    rewrite Nat.sub_0_r, substring_whole. reflexivity.
  - cbn [split_loop].
    pose proof (index_skip pre cur sep 0) as Hskip.
    rewrite Nat.add_0_r in Hskip. rewrite Hskip. clear Hskip.
    destruct (index 0 sep cur) as [j|] eqn:Hi; cbn [option_map].
    + destruct (index_first _ _ _ Hi) as (a & rest & -> & <- & _).
      rewrite substring_piece.
      pose proof (substring_piece "" a (sep ++ rest)) as Hp.
      cbn [JsString.length append Nat.add] in Hp. rewrite Hp. clear Hp.
      replace (pre ++ a ++ sep ++ rest) with ((pre ++ a ++ sep) ++ rest)
        by now rewrite !string_app_assoc.
      replace (JsString.length pre + JsString.length a + JsString.length sep)%nat
        with (JsString.length (pre ++ a ++ sep))
        by (rewrite !string_app_length; lia).
      rewrite IH.
      replace (a ++ sep ++ rest) with ((a ++ sep) ++ rest)
        by now rewrite !string_app_assoc.
      replace (JsString.length a + JsString.length sep)%nat
        with (JsString.length (a ++ sep)) by now rewrite string_app_length.
      rewrite IH. cbn [app]. rewrite <- app_assoc. reflexivity.
    + rewrite substring_from. rewrite Nat.sub_0_r, substring_whole. reflexivity.
Qed.

(** One turn of the loop, seen from the start of a string. *)
Lemma split_loop_step (fuel : nat) (sep a rest : string) :
  index 0 sep (a ++ sep ++ rest) = Some (JsString.length a) ->
  split_loop (S fuel) (a ++ sep ++ rest) sep 0 [] = a :: split_loop fuel rest sep 0 [].
Proof.
  intros Hi. cbn [split_loop]. rewrite Hi.
  rewrite Nat.sub_0_r, substring_front. cbn [app].
  replace (a ++ sep ++ rest) with ((a ++ sep) ++ rest)
    by now rewrite !string_app_assoc.
  replace (JsString.length a + JsString.length sep)%nat
    with (JsString.length (a ++ sep)) by now rewrite string_app_length.
  rewrite split_loop_shift. reflexivity.
Qed.

Lemma split_loop_absent (fuel : nat) (sep s : string) :
  index 0 sep s = None -> split_loop fuel s sep 0 [] = [s].
Proof.
  intros Hi. destruct fuel; cbn [split_loop]; rewrite ?Hi;
    rewrite Nat.sub_0_r, substring_whole; reflexivity.
Qed.

(** The fuel handed to the loop by [split] is never used up. *)
Lemma split_loop_fuel (sep : string) :
  sep <> "" ->
  forall (f1 f2 : nat) (s : string),
    (JsString.length s <= f1)%nat -> (JsString.length s <= f2)%nat ->
    split_loop f1 s sep 0 [] = split_loop f2 s sep 0 [].
Proof.
  intros Hsep. induction f1 as [|f1 IH]; intros f2 s H1 H2.
  - assert (s = "") as -> by (apply string_length_zero; lia).
    assert (index 0 sep "" = None) as Hi by (destruct sep; [contradiction | reflexivity]).
    now rewrite !split_loop_absent.
  - destruct (index 0 sep s) as [j|] eqn:Hi.
    + destruct (index_first _ _ _ Hi) as (a & rest & -> & <- & _).
      assert (JsString.length sep <> 0)%nat as Hlen
        by (intros H0; apply Hsep, string_length_zero, H0).
      rewrite !string_app_length in H1, H2.
      destruct f2 as [|f2]; [lia|].
      rewrite !split_loop_step by exact Hi.
      f_equal. apply IH; lia.
    + now rewrite !split_loop_absent.
Qed.

Lemma split_by_loop (str sep : string) :
  sep <> "" -> split str sep = split_loop (JsString.length str) str sep 0 [].
Proof.
  intros Hsep. unfold split.
  destruct (string_eqb_spec sep "") as [->|_]; [contradiction|].
  destruct (string_eqb_spec str "") as [->|_]; reflexivity.
Qed.

(** [split] on a string without the separator. *)
Lemma split_absent (str sep : string) :
  sep <> "" -> ~ occursIn sep str -> split str sep = [str].
Proof.
  intros Hsep Habs. rewrite split_by_loop by exact Hsep.
  apply split_loop_absent, index_none_of_absent, Habs.
Qed.

(** [split] cuts at the first occurrence and goes on behind it. *)
Lemma split_first (sep a rest : string) :
  sep <> "" -> occursOnlyAtEnd sep (a ++ sep) ->
  split (a ++ sep ++ rest) sep = a :: split rest sep.
Proof.
  intros Hsep Hend. rewrite !split_by_loop by exact Hsep.
  assert (JsString.length sep <> 0)%nat as Hlen
    by (intros H0; apply Hsep, string_length_zero, H0).
  pose proof (index_of_first sep a rest Hsep Hend) as Hi.
  destruct (JsString.length (a ++ sep ++ rest)) as [|f] eqn:Hf.
  - rewrite !string_app_length in Hf. lia.
  - rewrite split_loop_step by exact Hi. f_equal.
    apply split_loop_fuel; [exact Hsep | | lia].
    rewrite !string_app_length in Hf. lia.
Qed.

Lemma split_not_nil (str sep : string) : sep <> "" -> split str sep <> [].
Proof.
  intros Hsep. rewrite split_by_loop by exact Hsep.
  destruct (index 0 sep str) as [j|] eqn:Hi.
  - destruct (index_first _ _ _ Hi) as (a & rest & -> & <- & _).
    destruct (JsString.length (a ++ sep ++ rest)) as [|f] eqn:Hf.
    + cbn [split_loop app]. discriminate.
    + rewrite split_loop_step by exact Hi. discriminate.
  - rewrite split_loop_absent by exact Hi. discriminate.
Qed.

Lemma concat_cons (sep x : string) (xs : list string) :
  xs <> [] -> JsString.concat sep (x :: xs) = x ++ sep ++ JsString.concat sep xs.
Proof. destruct xs; [contradiction | reflexivity]. Qed.


(** With the empty separator: one piece per character. *)
Lemma split_empty_sep (str : string) :
  split str "" = map (fun c => String c "") (codeUnits str).
Proof. reflexivity. Qed.


End SplitFacts.

(** ** The delimiter inserter *)

Section InsertDelimiter.

Context {T : Type}.

Lemma insertDelimiter_loop_spec (delim : T) (rest out : list T) :
  insertDelimiter_loop rest delim out = out ++ flat_map (fun x => [delim; x]) rest.
Proof.
  revert out; induction rest as [|x rest IH]; intros out; cbn [insertDelimiter_loop flat_map].
  - now rewrite app_nil_r.
  - rewrite IH, <- app_assoc. reflexivity.
Qed.

Lemma insertDelimiter_cons (delim first : T) (rest : list T) :
  insertDelimiterIntoTuple (first :: rest) delim =
  first :: flat_map (fun x => [delim; x]) rest.
Proof. unfold insertDelimiterIntoTuple. now rewrite insertDelimiter_loop_spec. Qed.

Lemma interleaved_length (delim : T) (rest : list T) :
  length (flat_map (fun x => [delim; x]) rest) = 2 * length rest.
Proof. induction rest as [|x rest IH]; cbn [flat_map app length]; lia. Qed.

Lemma interleaved_even (delim : T) (rest : list T) (i : nat) :
  nth_error (flat_map (fun x => [delim; x]) rest) (2 * i) =
  if (i <? length rest)%nat then Some delim else None.
Proof.
  revert i; induction rest as [|x rest IH]; intros i; cbn [flat_map app length].
  - now destruct i.
  - destruct i as [|i]; [reflexivity|].
    replace (2 * S i) with (S (S (2 * i))) by lia.
    cbn [nth_error]. rewrite IH. reflexivity.
Qed.

Lemma interleaved_odd (delim : T) (rest : list T) (i : nat) :
  nth_error (flat_map (fun x => [delim; x]) rest) (2 * i + 1) = nth_error rest i.
Proof.
  revert i; induction rest as [|x rest IH]; intros i; cbn [flat_map app].
  - rewrite Nat.add_1_r. now destruct i.
  - destruct i as [|i]; [reflexivity|].
    replace (2 * S i + 1) with (S (S (2 * i + 1))) by lia.
    cbn [nth_error]. apply IH.
Qed.

End InsertDelimiter.

(** C9. The delimiter inserter is total; on [n] elements it returns
    [2n-1] elements ([0] for [n = 0], the element alone for [n = 1]); the
    original elements sit, in their order, at the even positions and the
    separator at every odd position between two of them. *)
Theorem insertDelimiterIntoTuple_interleaves :
  forall (T : Type) (lst : list T) (delim : T),
    length (insertDelimiterIntoTuple lst delim) =
      match lst with [] => 0 | _ :: _ => 2 * length lst - 1 end
    /\ insertDelimiterIntoTuple [] delim = []
    /\ (forall x, insertDelimiterIntoTuple [x] delim = [x])
    /\ (forall i, nth_error (insertDelimiterIntoTuple lst delim) (2 * i) = nth_error lst i)
    /\ (forall i, nth_error (insertDelimiterIntoTuple lst delim) (2 * i + 1) =
                  if (S i <? length lst)%nat then Some delim else None).
Proof.
  intros T lst delim. repeat split; try reflexivity.
  - destruct lst as [|first rest]; [reflexivity|].
    rewrite insertDelimiter_cons. cbn [length].
    rewrite interleaved_length. lia.
  - intros i. destruct lst as [|first rest].
    + cbn. now destruct i.
    + rewrite insertDelimiter_cons. destruct i as [|i]; [reflexivity|].
      replace (2 * S i) with (S (2 * i + 1)) by lia.
      cbn [nth_error]. apply interleaved_odd.
  - intros i. destruct lst as [|first rest].
    + cbn. rewrite Nat.add_1_r. reflexivity.
    + rewrite insertDelimiter_cons. rewrite Nat.add_1_r.
      cbn [nth_error length]. rewrite interleaved_even. reflexivity.
Qed.

(** ** The per-segment runner *)

Section Runner.

Variable unparsedValues : list string.

Lemma array_map_from_safeParse (parts : list ZodType) (i : nat) :
  array_map_from (fun schema k => callSafeParse k schema (array_get unparsedValues k))
                 i parts =
  (safeParseEvents i (length parts) unparsedValues,
   Normal (outcomes_from i parts unparsedValues)).
Proof.
  revert i; induction parts as [|schema rest IH]; intros i.
  - reflexivity.
  - cbn [array_map_from]. rewrite IH.
    unfold callSafeParse, bind, ret. rewrite app_nil_r. reflexivity.
Qed.

Lemma mapSafeParse_spec (parts : list ZodType) :
  mapSafeParse parts unparsedValues =
  (safeParseEvents 0 (length parts) unparsedValues,
   Normal (outcomes_from 0 parts unparsedValues)).
Proof. apply array_map_from_safeParse. Qed.

Lemma outcomes_from_length (parts : list ZodType) (i : nat) :
  length (outcomes_from i parts unparsedValues) = length parts.
Proof.
  revert i; induction parts as [|schema rest IH]; intros i; cbn [outcomes_from length];
    [reflexivity | now rewrite IH].
Qed.

Lemma outcomes_from_nth (parts : list ZodType) (i k : nat) :
  nth_error (outcomes_from i parts unparsedValues) k =
  option_map (fun schema => safeParse schema (array_get unparsedValues (i + k)))
             (nth_error parts k).
Proof.
  revert i k; induction parts as [|schema rest IH]; intros i k.
  - now destruct k.
  - destruct k as [|k]; cbn [outcomes_from nth_error option_map].
    + now rewrite Nat.add_0_r.
    + rewrite IH. now rewrite Nat.add_succ_r.
Qed.


Lemma safeParseEvents_no_check (i n : nat) (values : list value) :
  ~ In (EvCheck values) (safeParseEvents i n unparsedValues).
Proof.
  unfold safeParseEvents. intros H. apply in_map_iff in H as (k & Hk & _).
  discriminate.
Qed.

End Runner.

(** C8. The runner calls [safeParse] once for every validator, in the order
    of the list; validator [i] is called on piece [i] of the split result, or
    on [undefined] where there is no such piece. It answers with exactly one
    outcome per validator, whatever the number of pieces, and each outcome is
    the validator's own answer to its piece, whether or not an earlier
    validator failed. *)
Theorem mapSafeParse_positional :
  forall (parts : list ZodType) (unparsedValues : list string),
  exists outcomes : list ZodSafeParseResult,
    mapSafeParse parts unparsedValues =
      (map (fun i => EvSafeParse i match nth_error unparsedValues i with
                                   | Some piece => VStr piece
                                   | None => VUndefined
                                   end)
           (seq 0 (length parts)),
       Normal outcomes)
    /\ length outcomes = length parts
    /\ forall i, nth_error outcomes i =
                 option_map (fun schema =>
                               safeParse schema match nth_error unparsedValues i with
                                                | Some piece => VStr piece
                                                | None => VUndefined
                                                end)
                            (nth_error parts i).
Proof.
  intros parts unparsedValues.
  exists (outcomes_from 0 parts unparsedValues). repeat split.
  - apply mapSafeParse_spec.
  - apply outcomes_from_length.
  - intros i. apply outcomes_from_nth.
Qed.

Lemma mapSafeParse_positional_witness :
  mapSafeParse [zString; DaySchema; zString; zString] ["a"; "7"; "c"] =
  ([EvSafeParse 0 (VStr "a"); EvSafeParse 1 (VStr "7"); EvSafeParse 2 (VStr "c");
    EvSafeParse 3 VUndefined],
   Normal [Success (VStr "a"); Failure [mkIssue "invalid_type" None []];
           Success (VStr "c"); Failure [mkIssue "invalid_type" None []]]).
Proof.
  destruct (mapSafeParse_positional [zString; DaySchema; zString; zString]
              ["a"; "7"; "c"]) as (outcomes & Hcall & Hlen & Hnth).
  rewrite Hcall. f_equal. f_equal.
  destruct outcomes as [|o0 [|o1 [|o2 [|o3 [|o4 outcomes]]]]]; try discriminate Hlen.
  pose proof (Hnth 0) as H0. pose proof (Hnth 1) as H1.
  pose proof (Hnth 2) as H2. pose proof (Hnth 3) as H3.
  cbn in H0, H1, H2, H3.
  injection H0 as ->. injection H1 as ->. injection H2 as ->. injection H3 as ->.
  reflexivity.
Defined.

(** ** One validation call *)

Section ValidationCall.

Variables (parts : list ZodType) (delim : string).
Variable check : list value -> completion bool.
Variables (templateLiteralParams : TemplateLiteralParams) (checkParams : CustomParams).

(** The three ways a call can go, read off the code. *)
Lemma refineTemplateLiteral_spec (input : string) :
  refineTemplateLiteral parts delim check templateLiteralParams checkParams input =
  if structurallyMatches parts delim input then
    if forallb success (segmentOutcomes parts delim input) then
      (safeParseEvents 0 (length parts) (split input delim)
         ++ [EvCheck (map data (segmentOutcomes parts delim input))],
       match check (map data (segmentOutcomes parts delim input)) with
       | Normal true => Normal (Success (VStr input))
       | Normal false => Normal (Failure [customIssue checkParams])
       | Thrown e => Thrown e
       end)
    else
      (safeParseEvents 0 (length parts) (split input delim),
       Normal (Failure [customIssue checkParams]))
  else ([], Normal (Failure [invalidFormatIssue templateLiteralParams])).
Proof.
  unfold refineTemplateLiteral, refine, templateLiteral, structurallyMatches.
  destruct (matchesTemplate _ input); [|reflexivity].
  unfold splitIntoTemplateLiterals. rewrite mapSafeParse_spec.
  unfold segmentOutcomes, bind, ret, callCheck.
  destruct (forallb success _); cbn [negb].
  - destruct (check _) as [[|]|e]; rewrite ?app_nil_r; reflexivity.
  - rewrite !app_nil_r. reflexivity.
Qed.

Lemma some_segment_fails (input : string) (i : nat) (schema : ZodType) :
  nth_error parts i = Some schema ->
  success (safeParse schema (array_get (split input delim) i)) = false ->
  forallb success (segmentOutcomes parts delim input) = false.
Proof.
  intros Hnth Hfail.
  destruct (forallb success (segmentOutcomes parts delim input)) eqn:Hall;
    [|reflexivity].
  rewrite forallb_forall in Hall.
  rewrite <- Hfail. symmetry. apply Hall.
  apply (nth_error_In _ i). unfold segmentOutcomes.
  rewrite outcomes_from_nth, Hnth. reflexivity.
Qed.

End ValidationCall.

Lemma all_success_values (values : list value) :
  forallb success (map Success values) = true
  /\ map data (map Success values) = values.
Proof.
  induction values as [|v values [IH1 IH2]]; [split; reflexivity|].
  cbn [map forallb success data andb]. split; [exact IH1 | now rewrite IH2].
Qed.

(** C1, as the code has it. When the input has the template's shape, every
    segment validator succeeds and the predicate, called on the ordered tuple
    of the decoded outputs, answers [true], the call returns a Success outcome;
    its value is the input string itself, and the decoded tuple is what the
    predicate was called with. *)
Theorem refineTemplateLiteral_success :
  forall parts delim check templateLiteralParams checkParams input values,
    structurallyMatches parts delim input = true ->
    segmentOutcomes parts delim input = map Success values ->
    check values = Normal true ->
    refineTemplateLiteral parts delim check templateLiteralParams checkParams input =
    (safeParseEvents 0 (length parts) (split input delim) ++ [EvCheck values],
     Normal (Success (VStr input))).
Proof.
  intros parts delim check tlp cp input values Hshape Hsegs Hcheck.
  rewrite refineTemplateLiteral_spec, Hshape, Hsegs.
  destruct (all_success_values values) as [-> ->].
  now rewrite Hcheck.
Qed.

Lemma refineTemplateLiteral_success_witness :
  structurallyMatches [zString; zString] "|" "a|b" = true
  /\ segmentOutcomes [zString; zString] "|" "a|b" = map Success [VStr "a"; VStr "b"]
  /\ alwaysTrue [VStr "a"; VStr "b"] = Normal true
  /\ refineTemplateLiteral [zString; zString] "|" alwaysTrue noParams noCheckParams "a|b" =
     (safeParseEvents 0 2 (split "a|b" "|") ++ [EvCheck [VStr "a"; VStr "b"]],
      Normal (Success (VStr "a|b"))).
Proof.
  split; [reflexivity|]. split; [reflexivity|]. split; [reflexivity|].
  apply (refineTemplateLiteral_success [zString; zString] "|" alwaysTrue
           noParams noCheckParams "a|b" [VStr "a"; VStr "b"]); reflexivity.
Defined.

(** C1, as the claim states it, fails on the [String, String] validator
    with delimiter ["|"]: the input ["a|b"] passes every stage, the segments
    decode to ["a"] and ["b"], and the Success outcome holds the string
    ["a|b"], not the tuple (["a"], ["b"]). *)
Lemma success_is_not_the_tuple :
  structurallyMatches [zString; zString] "|" "a|b" = true
  /\ segmentOutcomes [zString; zString] "|" "a|b" =
     [Success (VStr "a"); Success (VStr "b")]
  /\ alwaysTrue [VStr "a"; VStr "b"] = Normal true
  /\ result (refineTemplateLiteral [zString; zString] "|" alwaysTrue
               noParams noCheckParams "a|b")
     = Normal (Success (VStr "a|b"))
  /\ result (refineTemplateLiteral [zString; zString] "|" alwaysTrue
               noParams noCheckParams "a|b")
     <> Normal (Success (VArr [VStr "a"; VStr "b"])).
Proof.
  repeat split; try reflexivity. vm_compute. discriminate.
Qed.

(** C2, as the code has it. When the input has the template's shape and
    one or more segment validators fail, the call returns a Failure outcome
    that holds the single error configured for the predicate, the same as
    when the predicate rejects; the segments' own errors are not in it. *)
Theorem refineTemplateLiteral_segment_failure :
  forall parts delim check templateLiteralParams checkParams input,
    structurallyMatches parts delim input = true ->
    forallb success (segmentOutcomes parts delim input) = false ->
    result (refineTemplateLiteral parts delim check templateLiteralParams checkParams input)
    = Normal (Failure [customIssue checkParams]).
Proof.
  intros parts delim check tlp cp input Hshape Hfail.
  now rewrite refineTemplateLiteral_spec, Hshape, Hfail.
Qed.

Lemma refineTemplateLiteral_segment_failure_witness :
  structurallyMatches [DaySchema; MonthSchema] "," "0,13" = true
  /\ forallb success (segmentOutcomes [DaySchema; MonthSchema] "," "0,13") = false
  /\ result (refineTemplateLiteral [DaySchema; MonthSchema] "," verify noParams
               (mkCustomParams (Some "Verify failed!") []) "0,13")
     = Normal (Failure [mkIssue "custom" (Some "Verify failed!") []]).
Proof.
  split; [reflexivity|]. split; [reflexivity|].
  apply (refineTemplateLiteral_segment_failure [DaySchema; MonthSchema] "," verify
           noParams (mkCustomParams (Some "Verify failed!") []) "0,13"); reflexivity.
Defined.

(** C2, as the claim states it, fails on [play.ts]: on ["0,13"] both
    segments fail, each with its own error, and neither error is part of the
    composite failure. *)
Lemma DateSchema_drops_segment_errors :
  structurallyMatches [DaySchema; MonthSchema] "," "0,13" = true
  /\ segmentOutcomes [DaySchema; MonthSchema] "," "0,13" =
     [Failure [mkIssue "invalid_type" None []]; Failure [mkIssue "invalid_type" None []]]
  /\ exists issues,
       result (DateSchema "0,13") = Normal (Failure issues)
       /\ issues = [mkIssue "custom" (Some "Verify failed!") []]
       /\ ~ In (mkIssue "invalid_type" None []) issues.
Proof.
  split; [reflexivity|]. split; [reflexivity|].
  exists [mkIssue "custom" (Some "Verify failed!") []].
  split; [reflexivity|]. split; [reflexivity|].
  intros [H|[]]; discriminate.
Qed.

(** C3, as the code has it. With [String, String] and ["|"], the input
    ["a|b|c"] has the template's shape and splits into three pieces; the two
    validators see ["a"] and ["b"], the third piece is not looked at, the
    predicate is called on (["a"], ["b"]) and its answer decides the outcome,
    which is a Success holding ["a|b|c"] when it answers [true]. *)
Theorem extra_piece_is_ignored :
  forall check templateLiteralParams checkParams,
    split "a|b|c" "|" = ["a"; "b"; "c"]
    /\ refineTemplateLiteral [zString; zString] "|" check
         templateLiteralParams checkParams "a|b|c" =
       ([EvSafeParse 0 (VStr "a"); EvSafeParse 1 (VStr "b");
         EvCheck [VStr "a"; VStr "b"]],
        match check [VStr "a"; VStr "b"] with
        | Normal true => Normal (Success (VStr "a|b|c"))
        | Normal false => Normal (Failure [customIssue checkParams])
        | Thrown e => Thrown e
        end).
Proof.
  intros check tlp cp. split; [reflexivity|].
  rewrite refineTemplateLiteral_spec. reflexivity.
Qed.

(** C3, as the claim states it, fails: with the predicate that is always
    [true], ["a|b|c"] is accepted. *)
Lemma extra_piece_is_accepted :
  split "a|b|c" "|" = ["a"; "b"; "c"]
  /\ result (refineTemplateLiteral [zString; zString] "|" alwaysTrue
               noParams noCheckParams "a|b|c")
     = Normal (Success (VStr "a|b|c")).
Proof. split; reflexivity. Qed.

(** C4. The call throws exactly when the predicate is reached and throws,
    and then it throws the predicate's own exception: no Failure outcome is
    returned for that case. A structural mismatch, a failing segment and a
    predicate that answers [false] are each returned as a Failure outcome. *)
Theorem only_the_predicate_throws :
  forall parts delim check templateLiteralParams checkParams input,
    let call :=
      refineTemplateLiteral parts delim check templateLiteralParams checkParams input in
    let values := map data (segmentOutcomes parts delim input) in
    (forall e,
        result call = Thrown e <->
        structurallyMatches parts delim input = true
        /\ forallb success (segmentOutcomes parts delim input) = true
        /\ check values = Thrown e)
    /\ (structurallyMatches parts delim input = false ->
        result call = Normal (Failure [invalidFormatIssue templateLiteralParams]))
    /\ (structurallyMatches parts delim input = true ->
        forallb success (segmentOutcomes parts delim input) = false ->
        result call = Normal (Failure [customIssue checkParams]))
    /\ (structurallyMatches parts delim input = true ->
        forallb success (segmentOutcomes parts delim input) = true ->
        check values = Normal false ->
        result call = Normal (Failure [customIssue checkParams])).
Proof.
  intros parts delim check tlp cp input call values. subst call values.
  rewrite refineTemplateLiteral_spec.
  destruct (structurallyMatches parts delim input);
    [destruct (forallb success (segmentOutcomes parts delim input))|];
    cbn [result snd].
  - repeat split; try discriminate.
    + destruct (check _) as [[|]|e']; try discriminate. now injection H as ->.
    + intros (_ & _ & ->). reflexivity.
    + intros _ _ ->. reflexivity.
  - repeat split; try discriminate; try reflexivity.
    intros (_ & H & _). discriminate.
  - repeat split; try discriminate; try reflexivity.
    intros (H & _). discriminate.
Qed.

Lemma only_the_predicate_throws_witness :
  (structurallyMatches [zString] "|" "test" = true
   /\ forallb success (segmentOutcomes [zString] "|" "test") = true
   /\ alwaysThrows (map data (segmentOutcomes [zString] "|" "test"))
      = Thrown (VStr "Custom validation error"))
  /\ result (refineTemplateLiteral [zString] "|" alwaysThrows noParams noCheckParams "test")
     = Thrown (VStr "Custom validation error")
  /\ (structurallyMatches [DaySchema; MonthSchema] "," "31/11" = false
      /\ result (DateSchema "31/11") = Normal (Failure [invalidFormatIssue noParams]))
  /\ (forallb success (segmentOutcomes [DaySchema; MonthSchema] "," "0,13") = false
      /\ result (DateSchema "0,13")
         = Normal (Failure [mkIssue "custom" (Some "Verify failed!") []]))
  /\ (allNonEmpty (map data (segmentOutcomes [zString; zString; zString] "," "a,,c"))
        = Normal false
      /\ result (refineTemplateLiteral [zString; zString; zString] "," allNonEmpty
                   noParams (mkCustomParams (Some "All parts must be non-empty") [])
                   "a,,c")
         = Normal (Failure [mkIssue "custom" (Some "All parts must be non-empty") []])).
Proof.
  assert (structurallyMatches [zString] "|" "test" = true
          /\ forallb success (segmentOutcomes [zString] "|" "test") = true
          /\ alwaysThrows (map data (segmentOutcomes [zString] "|" "test"))
             = Thrown (VStr "Custom validation error")) as Hthrows
    by (repeat split; reflexivity).
  split; [exact Hthrows|].
  split.
  { apply (proj1 (only_the_predicate_throws [zString] "|" alwaysThrows
                    noParams noCheckParams "test")).
    exact Hthrows. }
  split.
  { split; [reflexivity|].
    apply (proj1 (proj2 (only_the_predicate_throws [DaySchema; MonthSchema] "," verify
                           noParams (mkCustomParams (Some "Verify failed!") []) "31/11"))).
    reflexivity. }
  split.
  { split; [reflexivity|].
    apply (proj1 (proj2 (proj2 (only_the_predicate_throws [DaySchema; MonthSchema] ","
             verify noParams (mkCustomParams (Some "Verify failed!") []) "0,13"))));
      reflexivity. }
  split; [reflexivity|].
  apply (proj2 (proj2 (proj2 (only_the_predicate_throws [zString; zString; zString] ","
           allNonEmpty noParams
           (mkCustomParams (Some "All parts must be non-empty") []) "a,,c"))));
    reflexivity.
Defined.

(** C5. When the input does not have the template's shape, or some segment
    validator fails on the piece at its position, the predicate is not called
    in that validation call. *)
Theorem predicate_short_circuit :
  forall parts delim check templateLiteralParams checkParams input,
    (structurallyMatches parts delim input = false
     \/ exists i schema,
          nth_error parts i = Some schema
          /\ success (safeParse schema (array_get (split input delim) i)) = false) ->
    forall values,
      ~ In (EvCheck values)
           (trace (refineTemplateLiteral parts delim check
                     templateLiteralParams checkParams input)).
Proof.
  intros parts delim check tlp cp input Hfail values.
  rewrite refineTemplateLiteral_spec.
  destruct (structurallyMatches parts delim input) eqn:Hshape.
  - destruct Hfail as [Hfail | (i & schema & Hnth & Hbad)]; [discriminate|].
    rewrite (some_segment_fails parts delim input i schema Hnth Hbad).
    apply safeParseEvents_no_check.
  - intros [].
Qed.

Lemma predicate_short_circuit_witness :
  (nth_error [DaySchema; MonthSchema] 1 = Some MonthSchema
   /\ success (safeParse MonthSchema (array_get (split "7,13" ",") 1)) = false)
  /\ ~ In (EvCheck [VNum 7; VNum 13]) (trace (DateSchema "7,13")).
Proof.
  assert (nth_error [DaySchema; MonthSchema] 1 = Some MonthSchema
          /\ success (safeParse MonthSchema (array_get (split "7,13" ",") 1)) = false)
    as Hbad by (split; reflexivity).
  split; [exact Hbad|].
  apply (predicate_short_circuit [DaySchema; MonthSchema] "," verify noParams
           (mkCustomParams (Some "Verify failed!") []) "7,13").
  right. exists 1, MonthSchema. exact Hbad.
Defined.



(** ** Splitting *)







(** ** Joining, then validating *)

Section RoundTrip.

Local Open Scope js_scope.

Lemma splits_in (a b : string) : In (a, b) (splits (a ++ b)).
Proof.
  induction a as [|c a IH].
  - destruct b; left; reflexivity.
  - cbn [append splits]. right.
    apply (in_map (fun ab => (String c (fst ab), snd ab)) _ (a, b)). exact IH.
Qed.

Lemma stripPrefix_app (p s : string) : stripPrefix p (p ++ s) = Some s.
Proof.
  induction p as [|c p IH]; cbn [append stripPrefix]; [reflexivity|].
  now rewrite N.eqb_refl.
Qed.

Variable delim : string.

Lemma matchesTemplate_joined (rest : list ZodType) :
  forall (texts : list string) (schema : ZodType) (t : string),
    pattern schema t = true -> eachMatches rest texts ->
    matchesTemplate
      (PartSchema schema ::
         flat_map (fun x => [PartLiteral delim; x]) (map PartSchema rest))
      (JsString.concat delim (t :: texts)) = true.
Proof.
  induction rest as [|schema' rest IH]; intros texts schema t Ht Hrest.
  - destruct texts; [|contradiction]. cbn [map flat_map matchesTemplate JsString.concat].
    apply existsb_exists. exists (t, ""). split.
    + rewrite <- (string_app_nil_r t) at 2. apply splits_in.
    + cbn [fst snd]. now rewrite Ht.
  - destruct texts as [|t' texts]; [contradiction|].
    destruct Hrest as (Ht' & _ & Hrest).
    rewrite concat_cons by discriminate.
    cbn [map flat_map app]. cbn [matchesTemplate].
    apply existsb_exists. exists (t, delim ++ JsString.concat delim (t' :: texts)).
    split; [apply splits_in|]. cbn [fst snd]. rewrite Ht, stripPrefix_app.
    apply (IH texts schema' t' Ht' Hrest).
Qed.

Lemma structurallyMatches_joined (parts : list ZodType) (texts : list string) :
  eachMatches parts texts ->
  structurallyMatches parts delim (JsString.concat delim texts) = true.
Proof.
  unfold structurallyMatches. destruct parts as [|schema rest]; intros H.
  - destruct texts; [reflexivity | contradiction].
  - destruct texts as [|t texts]; [contradiction|]. destruct H as (Ht & _ & Hrest).
    cbn [map]. rewrite insertDelimiter_cons. now apply matchesTemplate_joined.
Qed.

Lemma outcomes_of_texts (parts : list ZodType) :
  forall (texts before : list string),
    eachMatches parts texts ->
    forallb success (outcomes_from (length before) parts (before ++ texts)%list) = true
    /\ map data (outcomes_from (length before) parts (before ++ texts)%list)
       = decodedValues parts texts.
Proof.
  induction parts as [|schema rest IH]; intros texts before H.
  - split; [reflexivity | now destruct texts].
  - destruct texts as [|t texts]; [contradiction|]. destruct H as (_ & Hok & Hrest).
    cbn [outcomes_from forallb map decodedValues].
    assert (array_get (before ++ t :: texts)%list (length before) = VStr t) as ->.
    { unfold array_get. rewrite nth_error_app2, Nat.sub_diag by lia. reflexivity. }
    rewrite Hok. cbn [andb].
    specialize (IH texts (before ++ [t])%list Hrest).
    rewrite <- app_assoc, length_app in IH. cbn [app length] in IH.
    rewrite Nat.add_1_r in IH. destruct IH as [IH1 IH2].
    split; [exact IH1 | now rewrite IH2].
Qed.

Lemma split_concat (texts : list string) :
  texts <> [] -> separable delim texts -> split (JsString.concat delim texts) delim = texts.
Proof.
  intros Hne Hsep.
  assert (delim <> "") as Hdelim.
  { intros ->. destruct texts as [|t texts]; [contradiction|]. clear Hne.
    revert t Hsep; induction texts as [|t' texts IH]; intros t Hsep.
    - apply Hsep. exists "", t. reflexivity.
    - destruct Hsep as [_ Hsep]. exact (IH t' Hsep). }
  destruct texts as [|t texts]; [contradiction|]. clear Hne.
  revert t Hsep; induction texts as [|t' texts IH]; intros t Hsep.
  - cbn [JsString.concat]. now apply split_absent.
  - destruct Hsep as [Hend Hsep].
    rewrite concat_cons by discriminate.
    rewrite split_first by assumption. now rewrite IH.
Qed.

End RoundTrip.


Lemma eachMatches_length (parts : list ZodType) :
  forall texts, eachMatches parts texts -> length parts = length texts.
Proof.
  induction parts as [|schema rest IH]; intros [|t texts] H; try contradiction.
  - reflexivity.
  - destruct H as (_ & _ & H). cbn [length]. now rewrite (IH texts H).
Qed.

(** C7, as the code has it. Take a non-empty list of raw texts, each of the
    shape of its validator and accepted by it, such that the last text is free
    of the delimiter and the delimiter appended to any other text occurs there
    only as that appended copy. Then splitting the joined string gives the raw
    texts back, the joined string has the template's shape, every validator is
    called on its own raw text, and the predicate is called on exactly the
    values decoded from the raw texts; when it answers [true] the call is a
    Success holding the joined string. *)
Theorem join_then_validate :
  forall parts delim check templateLiteralParams checkParams texts,
    texts <> [] ->
    eachMatches parts texts ->
    separable delim texts ->
    let joined := JsString.concat delim texts in
    let call :=
      refineTemplateLiteral parts delim check templateLiteralParams checkParams joined in
    split joined delim = texts
    /\ structurallyMatches parts delim joined = true
    /\ trace call =
       safeParseEvents 0 (length texts) texts ++ [EvCheck (decodedValues parts texts)]
    /\ (check (decodedValues parts texts) = Normal true ->
        result call = Normal (Success (VStr joined))).
Proof.
  intros parts delim check tlp cp texts Hne Hmatch Hsep joined call.
  subst joined call.
  pose proof (split_concat delim texts Hne Hsep) as Hsplit.
  pose proof (structurallyMatches_joined delim parts texts Hmatch) as Hshape.
  destruct (outcomes_of_texts parts texts [] Hmatch) as [Hall Hdata].
  cbn [app length] in Hall, Hdata.
  rewrite refineTemplateLiteral_spec, Hshape.
  unfold segmentOutcomes. rewrite Hsplit, Hall, Hdata.
  rewrite (eachMatches_length parts texts Hmatch).
  repeat split. cbn [result snd]. now intros ->.
Qed.

Lemma join_then_validate_witness :
  ["a"; "b"] <> []
  /\ eachMatches [zString; zString] ["a"; "b"]
  /\ separable "|" ["a"; "b"]
  /\ split (JsString.concat "|" ["a"; "b"]) "|" = ["a"; "b"]
  /\ structurallyMatches [zString; zString] "|" (JsString.concat "|" ["a"; "b"]) = true
  /\ trace (refineTemplateLiteral [zString; zString] "|" alwaysTrue noParams
              noCheckParams (JsString.concat "|" ["a"; "b"]))
     = safeParseEvents 0 2 ["a"; "b"] ++ [EvCheck [VStr "a"; VStr "b"]]
  /\ (alwaysTrue [VStr "a"; VStr "b"] = Normal true ->
      result (refineTemplateLiteral [zString; zString] "|" alwaysTrue noParams
                noCheckParams (JsString.concat "|" ["a"; "b"]))
      = Normal (Success (VStr "a|b"))).
Proof.
  assert (["a"; "b"] <> []) as Hne by discriminate.
  assert (eachMatches [zString; zString] ["a"; "b"]) as Hmatch
    by (cbn; repeat split; reflexivity).
  assert (separable "|" ["a"; "b"]) as Hsep.
  { split; [apply onlyAtEnd_of_index | apply absent_of_index_none]; reflexivity. }
  split; [exact Hne|]. split; [exact Hmatch|]. split; [exact Hsep|].
  exact (join_then_validate [zString; zString] "|" alwaysTrue noParams noCheckParams
           ["a"; "b"] Hne Hmatch Hsep).
Defined.

(** C7, as the claim states it, fails when the delimiter can start inside
    a text and run into the delimiter that follows it: neither ["a"] nor ["b"]
    contains ["aa"], both are accepted by the String validator, and yet
    ["a" + "aa" + "b"] splits into [""] and ["ab"], which is also what the
    validators and the predicate get to see. *)
Lemma overlapping_delimiter_breaks_round_trip :
  Forall (fun t => ~ occursIn "aa" t) ["a"; "b"]
  /\ eachMatches [zString; zString] ["a"; "b"]
  /\ JsString.concat "aa" ["a"; "b"] = "aaab"
  /\ split (JsString.concat "aa" ["a"; "b"]) "aa" = [""; "ab"]
  /\ split (JsString.concat "aa" ["a"; "b"]) "aa" <> ["a"; "b"]
  /\ decodedValues [zString; zString] ["a"; "b"] = [VStr "a"; VStr "b"]
  /\ trace (refineTemplateLiteral [zString; zString] "aa" alwaysTrue noParams
              noCheckParams (JsString.concat "aa" ["a"; "b"]))
     = [EvSafeParse 0 (VStr ""); EvSafeParse 1 (VStr "ab");
        EvCheck [VStr ""; VStr "ab"]].
Proof.
  split.
  { repeat constructor; apply absent_of_index_none; reflexivity. }
  split; [cbn; repeat split; reflexivity|].
  repeat split; try reflexivity. discriminate.
Qed.

(** * Further properties of the module *)

(** ** The inserter and its type *)

(** For a mutable tuple type the declared result type
    [InsertDelimiterIntoTuple] is the tuple that the loop of
    [insertDelimiterIntoTuple] builds. For a read-only tuple type, which is
    what the function infers for its argument at a call, the declared result
    type is [never], whatever the loop returns. *)
Theorem insertDelimiterIntoTuple_and_its_type :
  forall (T : Type) (lst : list T) (delim : T),
    InsertDelimiterIntoTuple Mutable lst delim = Some (insertDelimiterIntoTuple lst delim)
    /\ InsertDelimiterIntoTuple Readonly lst delim = None.
Proof.
  intros T lst delim. split; [|now destruct lst].
  destruct lst as [|first rest]; [reflexivity|].
  rewrite insertDelimiter_cons. revert first.
  induction rest as [|x rest IH]; intros first; [reflexivity|].
  cbn [flat_map app]. change (InsertDelimiterIntoTuple Mutable (first :: x :: rest) delim)
    with (match InsertDelimiterIntoTuple Mutable (x :: rest) delim with
          | Some interleaved => Some (first :: delim :: interleaved)
          | None => None
          end).
  now rewrite IH.
Qed.

(** On strings the inserter is [array.join] cut into pieces: gluing the
    interleaved sequence together gives the join of the list. *)
Theorem insertDelimiterIntoTuple_is_join :
  forall (texts : list string) (delim : string),
    fold_right JsString.append "" (insertDelimiterIntoTuple texts delim) =
    JsString.concat delim texts.
Proof.
  intros texts delim. destruct texts as [|t texts]; [reflexivity|].
  rewrite insertDelimiter_cons. revert t.
  induction texts as [|t' texts IH]; intros t.
  - cbn. apply string_app_nil_r.
  - rewrite concat_cons by discriminate. rewrite <- IH. reflexivity.
Qed.


(** ** The runner and its type *)

Lemma MapOutput_spec (Parts : list ZodType) : MapOutput Parts = map OutputOf Parts.
Proof.
  induction Parts as [|First Rest IH]; [reflexivity|].
  destruct Rest as [|Second Rest]; [reflexivity|].
  cbn [MapOutput map] in *. now rewrite IH.
Qed.

(** The declared result type of [mapSafeParse] has one element per schema,
    but only its first element is a safe-parse result: from the second
    position on it names the schema's output, where the runner puts a
    safe-parse result all the same. Type and value agree exactly for lists of
    at most one schema. *)
Theorem MapSafeParse_beyond_the_first :
  forall Parts : list ZodType,
    length (MapSafeParse Parts) = length Parts
    /\ nth_error (MapSafeParse Parts) 0 = option_map SafeParseResultOf (nth_error Parts 0)
    /\ (forall i, nth_error (MapSafeParse Parts) (S i) =
                  option_map OutputOf (nth_error Parts (S i)))
    /\ (MapSafeParse Parts = map SafeParseResultOf Parts <-> length Parts <= 1).
Proof.
  intros [|First [|Second Rest]].
  - repeat split; try reflexivity; intros; cbn; lia.
  - repeat split; try reflexivity; intros; cbn; try lia. now destruct i.
  - unfold MapSafeParse. rewrite MapOutput_spec. repeat split.
    + cbn [length]. now rewrite length_map.
    + intros i. cbn [nth_error]. now rewrite nth_error_map.
    + intros H. cbn [map] in H. discriminate.
    + cbn [length]. lia.
Qed.

(** ** The splitter and its type *)

Section SplitStringFacts.

Local Open Scope js_scope.

Lemma stripPrefix_sound (p s t : string) : stripPrefix p s = Some t -> s = p ++ t.
Proof.
  revert s; induction p as [|a p IH]; intros s H.
  - cbn in H. now injection H as ->.
  - destruct s as [|b s]; cbn [stripPrefix] in H; [discriminate|].
    destruct (N.eqb_spec a b) as [->|]; [|discriminate].
    cbn. now rewrite (IH s H).
Qed.

Lemma inferHeadTail_cons (D : string) (c : codeUnit) (S' : string) :
  inferHeadTail D (String c S') =
  match stripPrefix D (String c S') with
  | Some Tail => Some ("", Tail)
  | None =>
      match inferHeadTail D S' with
      | Some (Head, Tail) => Some (String c Head, Tail)
      | None => None
      end
  end.
Proof. reflexivity. Qed.

(** What the inference finds is the first occurrence. *)
Lemma inferHeadTail_first (D S Head Tail : string) :
  inferHeadTail D S = Some (Head, Tail) ->
  S = Head ++ D ++ Tail /\ occursOnlyAtEnd D (Head ++ D).
Proof.
  revert Head; induction S as [|c S IH]; intros Head H.
  - cbn in H. destruct (stripPrefix D "") as [t|] eqn:Hp; [|discriminate].
    injection H as <- <-. split; [exact (stripPrefix_sound _ _ _ Hp)|].
    apply occursOnlyAtEnd_self.
  - rewrite inferHeadTail_cons in H.
    destruct (stripPrefix D (String c S)) as [t|] eqn:Hp.
    + injection H as <- <-. split; [exact (stripPrefix_sound _ _ _ Hp)|].
      apply occursOnlyAtEnd_self.
    + destruct (inferHeadTail D S) as [[h t]|] eqn:Hi; [|discriminate].
      injection H as <- <-. destruct (IH h eq_refl) as [HS Hend].
      split; [cbn; now rewrite HS|].
      intros [|y p] q Hpq.
      * exfalso. cbn in Hpq.
        assert (String c S = D ++ (q ++ t)) as HD.
        { rewrite HS, <- (string_app_assoc h D t).
          change (String c ((h ++ D) ++ t)) with (String c (h ++ D) ++ t).
          rewrite Hpq. apply string_app_assoc. }
        rewrite HD, stripPrefix_app in Hp. discriminate.
      * cbn in Hpq. injection Hpq as _ Hpq. exact (Hend p q Hpq).
Qed.

Lemma inferHeadTail_absent (D S : string) :
  inferHeadTail D S = None -> ~ occursIn D S.
Proof.
  intros Hi (p & q & HS). subst S. revert Hi.
  induction p as [|c p IH]; intros Hi.
  - cbn [append] in Hi. destruct (D ++ q) as [|x s] eqn:HD.
    + cbn in Hi. destruct D; [discriminate|discriminate].
    + rewrite inferHeadTail_cons, <- HD, stripPrefix_app in Hi. discriminate.
  - change (String c p ++ D ++ q) with (String c (p ++ D ++ q)) in Hi.
    rewrite inferHeadTail_cons in Hi.
    destruct (stripPrefix D (String c (p ++ D ++ q))); [discriminate|].
    destruct (inferHeadTail D (p ++ D ++ q)) as [[h t]|]; [discriminate|].
    now apply IH.
Qed.

Lemma StringToCharTuple_spec (S : string) :
  StringToCharTuple S = map (fun c => String c "") (codeUnits S).
Proof. induction S as [|c S IH]; cbn; [reflexivity | now rewrite IH]. Qed.

Lemma SplitString_at_split (D : string) :
  D <> "" ->
  forall (depth : nat) (S : string),
    (JsString.length S <= depth)%nat -> SplitString_at depth S D = split S D.
Proof.
  intros HD.
  assert (JsString.length D <> 0)%nat as Hlen
    by (intros H0; apply HD, string_length_zero, H0).
  assert (forall depth S,
             SplitString_at depth S D =
             if (S =? "")%js then [""]
             else match inferHeadTail D S with
                  | Some (Head, Tail) =>
                      Head :: match depth with
                              | O => [Tail]
                              | Datatypes.S depth' => SplitString_at depth' Tail D
                              end
                  | None => [S]
                  end) as Hunfold.
  { intros depth S. destruct depth; cbn [SplitString_at];
      destruct (string_eqb_spec D "") as [->|_]; try contradiction; reflexivity. }
  induction depth as [|depth IH]; intros S Hd.
  - assert (S = "") as -> by (apply string_length_zero; lia).
    rewrite Hunfold. cbn. symmetry. apply split_absent; [exact HD|].
    intros (p & q & H). apply (f_equal JsString.length) in H.
    rewrite !string_app_length in H. cbn in H. lia.
  - rewrite Hunfold. destruct (string_eqb_spec S "") as [->|HS].
    + symmetry. apply split_absent; [exact HD|].
      intros (p & q & H). apply (f_equal JsString.length) in H.
      rewrite !string_app_length in H. cbn in H. lia.
    + destruct (inferHeadTail D S) as [[Head Tail]|] eqn:Hi.
      * destruct (inferHeadTail_first _ _ _ _ Hi) as [-> Hend].
        rewrite split_first by assumption. f_equal. apply IH.
        rewrite !string_app_length in Hd. lia.
      * symmetry. apply split_absent; [exact HD|].
        now apply inferHeadTail_absent.
Qed.

End SplitStringFacts.

(** On literal strings the type [SplitString<S, D>] is the tuple of pieces
    that [str.split(delimiter)] returns, empty delimiter and empty string
    included, so the cast in [splitIntoTemplateLiterals] states the truth. *)
Theorem splitIntoTemplateLiterals_has_its_type :
  forall str delimiter : string,
    splitIntoTemplateLiterals str delimiter = SplitString str delimiter.
Proof.
  intros str delimiter. unfold splitIntoTemplateLiterals, SplitString.
  destruct (string_eqb_spec delimiter "") as [->|HD].
  - rewrite split_empty_sep.
    destruct str as [|c str]; [reflexivity|].
    cbn [JsString.length SplitString_at JsString.eqb].
    now rewrite StringToCharTuple_spec.
  - symmetry. apply SplitString_at_split; [exact HD | lia].
Qed.

(** ** What a split looks like *)

Section SplitInvariants.

Local Open Scope js_scope.

Variable sep : string.
Hypothesis sep_not_empty : sep <> "".

Lemma free_of_onlyAtEnd (t : string) : occursOnlyAtEnd sep (t ++ sep) -> ~ occursIn sep t.
Proof.
  intros Hend (p & q & ->).
  specialize (Hend p (q ++ sep)).
  rewrite !string_app_assoc in Hend. specialize (Hend eq_refl).
  apply sep_not_empty. apply (f_equal JsString.length) in Hend.
  rewrite string_app_length in Hend. apply string_length_zero. cbn in Hend. lia.
Qed.

Lemma separable_free (texts : list string) :
  separable sep texts -> Forall (fun t => ~ occursIn sep t) texts.
Proof.
  induction texts as [|t texts IH]; intros H; [constructor|].
  destruct texts as [|t' texts].
  - constructor; [exact H | constructor].
  - destruct H as [Hend H]. constructor; [now apply free_of_onlyAtEnd | now apply IH].
Qed.

Lemma split_cases (str : string) :
  (split str sep = [str] /\ ~ occursIn sep str)
  \/ exists a rest,
       str = a ++ sep ++ rest /\ occursOnlyAtEnd sep (a ++ sep)
       /\ split str sep = a :: split rest sep.
Proof.
  destruct (index 0 sep str) as [j|] eqn:Hi.
  - right. destruct (index_first _ _ _ Hi) as (a & rest & -> & _ & Hend).
    exists a, rest. repeat split; [exact Hend | now apply split_first].
  - left. pose proof (absent_of_index_none _ _ Hi) as Habs.
    split; [now apply split_absent | exact Habs].
Qed.

Lemma split_separable_bounded (n : nat) :
  forall str,
    (JsString.length str <= n)%nat ->
    separable sep (split str sep)
    /\ (length (split str sep) <= JsString.length str + 1)%nat.
Proof.
  assert (JsString.length sep <> 0)%nat as Hlen
    by (intros H0; apply sep_not_empty, string_length_zero, H0).
  induction n as [|n IH]; intros str Hn;
    destruct (split_cases str) as [[-> Habs] | (a & rest & -> & Hend & ->)];
    try (split; [exact Habs | cbn; lia]);
    rewrite !string_app_length in Hn; try lia.
  destruct (IH rest ltac:(lia)) as [Hsep Hbound].
  split.
  - destruct (split rest sep) as [|y ys] eqn:Hs; [now apply split_not_nil in Hs|].
    split; assumption.
  - cbn [length]. rewrite !string_app_length. lia.
Qed.

End SplitInvariants.

(** With a non-empty separator a split is never empty, no piece contains the
    separator, no occurrence of the separator starts inside a piece and runs
    into the separator behind it, and there is at most one piece more than the
    string has characters. *)
Theorem split_pieces :
  forall str sep : string,
    sep <> "" ->
    splitIntoTemplateLiterals str sep <> []
    /\ Forall (fun piece => ~ occursIn sep piece) (splitIntoTemplateLiterals str sep)
    /\ separable sep (splitIntoTemplateLiterals str sep)
    /\ length (splitIntoTemplateLiterals str sep) <= JsString.length str + 1.
Proof.
  intros str sep Hsep. unfold splitIntoTemplateLiterals.
  destruct (split_separable_bounded sep Hsep (JsString.length str) str (le_n _))
    as [Hs Hb].
  split; [now apply split_not_nil|].
  split; [now apply separable_free|]. split; assumption.
Qed.

Lemma split_pieces_witness :
  "," <> ""
  /\ splitIntoTemplateLiterals "a,,b" "," <> []
  /\ Forall (fun piece => ~ occursIn "," piece) (splitIntoTemplateLiterals "a,,b" ",")
  /\ separable "," (splitIntoTemplateLiterals "a,,b" ",")
  /\ length (splitIntoTemplateLiterals "a,,b" ",") <= JsString.length "a,,b" + 1.
Proof.
  assert ("," <> "") as Hsep by discriminate.
  split; [exact Hsep|]. exact (split_pieces "a,,b" "," Hsep).
Defined.

(** For a non-empty delimiter and a non-empty list of texts, splitting the
    join gives the texts back exactly when the texts are separable: the last
    one free of the delimiter, and no occurrence of the delimiter starting
    inside any other one. *)
Theorem split_inverts_join_iff :
  forall (delim : string) (texts : list string),
    delim <> "" -> texts <> [] ->
    (splitIntoTemplateLiterals (JsString.concat delim texts) delim = texts
     <-> separable delim texts).
Proof.
  intros delim texts Hdelim Hne. unfold splitIntoTemplateLiterals. split.
  - intros H. rewrite <- H.
    apply (split_separable_bounded delim Hdelim _ _ (le_n _)).
  - now apply split_concat.
Qed.

Lemma split_inverts_join_iff_witness :
  "|" <> "" /\ ["a"; ""; "b"] <> []
  /\ (splitIntoTemplateLiterals (JsString.concat "|" ["a"; ""; "b"]) "|"
      = ["a"; ""; "b"]
      <-> separable "|" ["a"; ""; "b"]).
Proof.
  assert ("|" <> "") as Hdelim by discriminate.
  assert (["a"; ""; "b"] <> []) as Hne by discriminate.
  split; [exact Hdelim|]. split; [exact Hne|].
  exact (split_inverts_join_iff "|" ["a"; ""; "b"] Hdelim Hne).
Defined.

(** ** Which pieces the runner reads *)

Lemma array_get_firstn (n k : nat) (arr : list string) :
  k < n -> array_get (firstn n arr) k = array_get arr k.
Proof.
  intros Hk. unfold array_get. rewrite nth_error_firstn.
  apply Nat.ltb_lt in Hk. now rewrite Hk.
Qed.

Lemma outcomes_from_ext (parts : list ZodType) (v1 v2 : list string) :
  forall i,
    (forall k, i <= k < i + length parts -> array_get v1 k = array_get v2 k) ->
    outcomes_from i parts v1 = outcomes_from i parts v2.
Proof.
  induction parts as [|schema rest IH]; intros i H; [reflexivity|].
  cbn [outcomes_from]. cbn [length] in H. rewrite (H i) by lia.
  f_equal. apply IH. intros k Hk. apply H. lia.
Qed.

Lemma safeParseEvents_ext (i n : nat) (v1 v2 : list string) :
  (forall k, i <= k < i + n -> array_get v1 k = array_get v2 k) ->
  safeParseEvents i n v1 = safeParseEvents i n v2.
Proof.
  intros H. unfold safeParseEvents. apply map_ext_in.
  intros k Hk. apply in_seq in Hk. now rewrite H.
Qed.

(** The runner reads no piece behind the last validator: cutting the pieces
    down to as many as there are validators changes neither its calls nor its
    outcomes, and so pieces beyond that number go unnoticed. *)
Theorem mapSafeParse_reads_first_n :
  forall (parts : list ZodType) (unparsedValues : list string),
    mapSafeParse parts (firstn (length parts) unparsedValues) =
    mapSafeParse parts unparsedValues.
Proof.
  intros parts unparsedValues. rewrite !mapSafeParse_spec.
  assert (forall k, 0 <= k < 0 + length parts ->
                    array_get (firstn (length parts) unparsedValues) k =
                    array_get unparsedValues k) as H
    by (intros k Hk; apply array_get_firstn; lia).
  now rewrite (safeParseEvents_ext _ _ _ _ H), (outcomes_from_ext _ _ _ _ H).
Qed.

(** ** What an outcome tells *)

(** A Success outcome is sound: it holds the input string, and it is only
    returned when the input has the template's shape, every segment validator
    accepted the piece at its position and the predicate answered [true] on
    the decoded values. *)
Theorem success_is_sound :
  forall parts delim check templateLiteralParams checkParams input output,
    result (refineTemplateLiteral parts delim check templateLiteralParams checkParams input)
    = Normal (Success output) ->
    output = VStr input
    /\ structurallyMatches parts delim input = true
    /\ forallb success (segmentOutcomes parts delim input) = true
    /\ check (map data (segmentOutcomes parts delim input)) = Normal true.
Proof.
  intros parts delim check tlp cp input output.
  rewrite refineTemplateLiteral_spec.
  destruct (structurallyMatches parts delim input); [|discriminate].
  destruct (forallb success _); [|discriminate]. cbn [result snd].
  destruct (check _) as [[|]|e]; try discriminate.
  intros H. injection H as <-. repeat split.
Qed.

Lemma success_is_sound_witness :
  result (refineTemplateLiteral [zString; zString] "|" alwaysTrue
            noParams noCheckParams "a|b")
  = Normal (Success (VStr "a|b"))
  /\ VStr "a|b" = VStr "a|b"
  /\ structurallyMatches [zString; zString] "|" "a|b" = true
  /\ forallb success (segmentOutcomes [zString; zString] "|" "a|b") = true
  /\ alwaysTrue (map data (segmentOutcomes [zString; zString] "|" "a|b")) = Normal true.
Proof.
  assert (result (refineTemplateLiteral [zString; zString] "|" alwaysTrue
                    noParams noCheckParams "a|b")
          = Normal (Success (VStr "a|b"))) as H by reflexivity.
  split; [exact H|].
  exact (success_is_sound [zString; zString] "|" alwaysTrue noParams noCheckParams
           "a|b" (VStr "a|b") H).
Defined.

(** A Failure outcome holds exactly one issue: the structural one when the
    input does not have the template's shape, and otherwise the one configured
    for the predicate, which then stands for a failed segment or for a
    predicate that answered [false]. *)
Theorem failure_has_one_issue :
  forall parts delim check templateLiteralParams checkParams input issues,
    result (refineTemplateLiteral parts delim check templateLiteralParams checkParams input)
    = Normal (Failure issues) ->
    (structurallyMatches parts delim input = false
     /\ issues = [invalidFormatIssue templateLiteralParams])
    \/ (structurallyMatches parts delim input = true
        /\ issues = [customIssue checkParams]
        /\ (forallb success (segmentOutcomes parts delim input) = false
            \/ check (map data (segmentOutcomes parts delim input)) = Normal false)).
Proof.
  intros parts delim check tlp cp input issues.
  rewrite refineTemplateLiteral_spec.
  destruct (structurallyMatches parts delim input).
  - destruct (forallb success _); cbn [result snd].
    + destruct (check _) as [[|]|e]; try discriminate.
      intros H. injection H as <-. right. repeat split. now right.
    + intros H. injection H as <-. right. repeat split. now left.
  - intros H. injection H as <-. left. split; reflexivity.
Qed.

Lemma failure_has_one_issue_witness :
  result (DateSchema "31,11")
  = Normal (Failure [mkIssue "custom" (Some "Verify failed!") []])
  /\ ((structurallyMatches [DaySchema; MonthSchema] "," "31,11" = false
       /\ [mkIssue "custom" (Some "Verify failed!") []] = [invalidFormatIssue noParams])
      \/ (structurallyMatches [DaySchema; MonthSchema] "," "31,11" = true
          /\ [mkIssue "custom" (Some "Verify failed!") []]
             = [customIssue (mkCustomParams (Some "Verify failed!") [])]
          /\ (forallb success (segmentOutcomes [DaySchema; MonthSchema] "," "31,11")
              = false
              \/ verify (map data (segmentOutcomes [DaySchema; MonthSchema] "," "31,11"))
                 = Normal false))).
Proof.
  assert (result (DateSchema "31,11")
          = Normal (Failure [mkIssue "custom" (Some "Verify failed!") []])) as H
    by reflexivity.
  split; [exact H|].
  exact (failure_has_one_issue [DaySchema; MonthSchema] "," verify noParams
           (mkCustomParams (Some "Verify failed!") []) "31,11" _ H).
Defined.

(** The calls of one validation, in their order: none at all when the input
    does not have the template's shape; otherwise one [safeParse] per
    validator, from the first to the last, each on the piece of the split at
    its position ([undefined] where the split has no such piece), and then,
    only if all of them succeeded, one call of the predicate on their
    outputs. *)
Theorem calls_of_a_validation :
  forall parts delim check templateLiteralParams checkParams input,
    trace (refineTemplateLiteral parts delim check templateLiteralParams checkParams input)
    = if structurallyMatches parts delim input then
        map (fun i => EvSafeParse i
                        match nth_error (splitIntoTemplateLiterals input delim) i with
                        | Some piece => VStr piece
                        | None => VUndefined
                        end)
            (seq 0 (length parts))
        ++ (if forallb success (segmentOutcomes parts delim input)
            then [EvCheck (map data (segmentOutcomes parts delim input))]
            else [])
      else [].
Proof.
  intros parts delim check tlp cp input.
  rewrite refineTemplateLiteral_spec.
  destruct (structurallyMatches parts delim input); [|reflexivity].
  destruct (forallb success _); cbn [trace fst]; [reflexivity|].
  now rewrite app_nil_r.
Qed.

(** ** The template and the split *)

Section TemplateAndSplit.

Local Open Scope js_scope.

Lemma splits_sound (s a b : string) : In (a, b) (splits s) -> s = a ++ b.
Proof.
  revert a b; induction s as [|c s IH]; intros a b H.
  - destruct H as [H|[]]. now injection H as <- <-.
  - cbn [splits] in H. destruct H as [H|H].
    + now injection H as <- <-.
    + apply in_map_iff in H as ([a' b'] & Heq & Hin). cbn [fst snd] in Heq.
      injection Heq as <- <-. cbn. now rewrite (IH a' b' Hin).
Qed.

Lemma concat_glue (delim x t : string) (texts : list string) :
  x ++ JsString.concat delim (t :: texts) = JsString.concat delim ((x ++ t) :: texts).
Proof.
  destruct texts as [|t' texts]; [reflexivity|].
  rewrite (concat_cons delim t), (concat_cons delim (x ++ t)) by discriminate.
  now rewrite string_app_assoc.
Qed.

Lemma app_split_le (u v u' v' : string) :
  u ++ v = u' ++ v' -> (JsString.length u <= JsString.length u')%nat ->
  exists x, u' = u ++ x /\ v = x ++ v'.
Proof.
  revert u'; induction u as [|c u IH]; intros u' H Hlen.
  - exists u'. split; [reflexivity | exact H].
  - destruct u' as [|c' u']; cbn in Hlen; [lia|].
    cbn in H. injection H as <- H.
    destruct (IH u' H ltac:(lia)) as (x & -> & ->). exists x. split; reflexivity.
Qed.

Variable delim : string.

Lemma matchesTemplate_of_shapes (rest : list ZodType) :
  forall (texts : list string) (schema : ZodType) (t : string),
    pattern schema t = true ->
    Forall2 (fun schema t => pattern schema t = true) rest texts ->
    matchesTemplate
      (PartSchema schema ::
         flat_map (fun x => [PartLiteral delim; x]) (map PartSchema rest))
      (JsString.concat delim (t :: texts)) = true.
Proof.
  induction rest as [|schema' rest IH]; intros texts schema t Ht Hrest.
  - inversion Hrest; subst. cbn [map flat_map matchesTemplate JsString.concat].
    apply existsb_exists. exists (t, ""). split.
    + rewrite <- (string_app_nil_r t) at 2. apply splits_in.
    + cbn [fst snd]. now rewrite Ht.
  - inversion Hrest as [|? t' ? texts' Ht' Hrest']; subst.
    rewrite concat_cons by discriminate.
    cbn [map flat_map app]. cbn [matchesTemplate].
    apply existsb_exists. exists (t, delim ++ JsString.concat delim (t' :: texts')).
    split; [apply splits_in|]. cbn [fst snd]. rewrite Ht, stripPrefix_app.
    apply (IH texts' schema' t' Ht' Hrest').
Qed.

Lemma matchesTemplate_decompose (rest : list ZodType) :
  forall (schema : ZodType) (input : string),
    matchesTemplate
      (PartSchema schema ::
         flat_map (fun x => [PartLiteral delim; x]) (map PartSchema rest))
      input = true ->
    exists texts,
      Forall2 (fun schema t => pattern schema t = true) (schema :: rest) texts
      /\ JsString.concat delim texts = input.
Proof.
  induction rest as [|schema' rest IH]; intros schema input H.
  - cbn [map flat_map matchesTemplate] in H.
    apply existsb_exists in H as ([a b] & Hin & Hab). cbn [fst snd] in Hab.
    apply andb_true_iff in Hab as [Ha Hb]. apply string_eqb_eq in Hb. subst b.
    apply splits_sound in Hin. rewrite string_app_nil_r in Hin. subst input.
    exists [a]. split; [repeat constructor; exact Ha | reflexivity].
  - cbn [map flat_map app] in H. cbn [matchesTemplate] in H.
    apply existsb_exists in H as ([a b] & Hin & Hab). cbn [fst snd] in Hab.
    apply andb_true_iff in Hab as [Ha Hb].
    destruct (stripPrefix delim b) as [b'|] eqn:Hp; [|discriminate].
    apply stripPrefix_sound in Hp. apply splits_sound in Hin.
    destruct (IH schema' b' Hb) as (texts & Hshapes & Hjoin).
    exists (a :: texts). split; [constructor; assumption|].
    inversion Hshapes; subst. now rewrite concat_cons by discriminate.
Qed.

Lemma structurallyMatches_decompose (parts : list ZodType) (input : string) :
  structurallyMatches parts delim input = true ->
  exists texts,
    Forall2 (fun schema t => pattern schema t = true) parts texts
    /\ JsString.concat delim texts = input.
Proof.
  unfold structurallyMatches. destruct parts as [|schema rest]; intros H.
  - cbn in H. apply string_eqb_eq in H. subst. exists []. split; [constructor | reflexivity].
  - cbn [map] in H. rewrite insertDelimiter_cons in H.
    now apply matchesTemplate_decompose.
Qed.

Lemma structurallyMatches_of_shapes (parts : list ZodType) (texts : list string) :
  Forall2 (fun schema t => pattern schema t = true) parts texts ->
  structurallyMatches parts delim (JsString.concat delim texts) = true.
Proof.
  unfold structurallyMatches. intros H. destruct H as [|schema t rest texts Ht Hrest].
  - reflexivity.
  - cbn [map]. rewrite insertDelimiter_cons. now apply matchesTemplate_of_shapes.
Qed.

Hypothesis delim_not_empty : delim <> "".

(** The scan from the left finds at least as many pieces as any way of
    writing the string as a join. *)
Lemma split_at_least (n : nat) :
  forall (texts : list string) (str : string),
    (JsString.length str <= n)%nat -> texts <> [] ->
    JsString.concat delim texts = str ->
    length texts <= length (split str delim).
Proof.
  assert (JsString.length delim <> 0)%nat as Hlen
    by (intros H0; apply delim_not_empty, string_length_zero, H0).
  induction n as [|n IH]; intros texts str Hn Hne Hjoin;
    (destruct texts as [|t0 [|t1 texts]]; [contradiction | |]).
  - pose proof (split_not_nil str delim delim_not_empty).
    destruct (split str delim); [contradiction | cbn; lia].
  - rewrite concat_cons in Hjoin by discriminate. subst str.
    rewrite !string_app_length in Hn. lia.
  - pose proof (split_not_nil str delim delim_not_empty).
    destruct (split str delim); [contradiction | cbn; lia].
  - rewrite concat_cons in Hjoin by discriminate.
    destruct (split_cases delim delim_not_empty str)
      as [[_ Habs] | (a & rest & Hstr & Hend & ->)].
    + exfalso. apply Habs. exists t0, (JsString.concat delim (t1 :: texts)).
      now symmetry.
    + rewrite Hstr in Hjoin, Hn. clear Hstr.
      rewrite <- !string_app_assoc in Hjoin.
      assert (JsString.length a <= JsString.length t0)%nat as Hle.
      { destruct (Nat.le_gt_cases (JsString.length a) (JsString.length t0)) as [|Hgt];
          [assumption|]. exfalso.
        destruct (app_split_le _ _ _ _ Hjoin) as (x & Hx & _).
        { rewrite !string_app_length. lia. }
        rewrite string_app_assoc in Hx. pose proof (Hend t0 x Hx) as ->.
        apply (f_equal JsString.length) in Hx.
        rewrite !string_app_length in Hx. cbn in Hx. lia. }
      symmetry in Hjoin.
      destruct (app_split_le _ _ _ _ Hjoin) as (x & _ & Hrest).
      { rewrite !string_app_length. lia. }
      rewrite concat_glue in Hrest.
      rewrite !string_app_length in Hn.
      assert (length ((x ++ t1) :: texts) <= length (split rest delim)) as Hih.
      { apply (IH _ rest); [lia | discriminate | now symmetry]. }
      cbn [length] in *. lia.
Qed.

End TemplateAndSplit.

(** The template that [refineTemplateLiteral] composes accepts exactly the
    joins, with the delimiter, of one segment-shaped text per validator. *)
Theorem template_accepts_the_joins :
  forall (parts : list ZodType) (delim input : string),
    structurallyMatches parts delim input = true <->
    exists texts,
      Forall2 (fun schema t => pattern schema t = true) parts texts
      /\ JsString.concat delim texts = input.
Proof.
  intros parts delim input. split.
  - apply structurallyMatches_decompose.
  - intros (texts & Hshapes & <-). now apply structurallyMatches_of_shapes.
Qed.

(** With a non-empty delimiter an input of the template's shape splits into
    at least as many pieces as there are validators: every validator gets a
    string, and none is called on [undefined]. *)
Theorem every_validator_gets_a_piece :
  forall parts delim check templateLiteralParams checkParams input,
    delim <> "" ->
    structurallyMatches parts delim input = true ->
    length parts <= length (split input delim)
    /\ (forall i, i < length parts ->
                  exists piece, array_get (split input delim) i = VStr piece)
    /\ forall i,
         ~ In (EvSafeParse i VUndefined)
              (trace (refineTemplateLiteral parts delim check
                        templateLiteralParams checkParams input)).
Proof.
  intros parts delim check tlp cp input Hdelim Hshape.
  assert (length parts <= length (split input delim)) as Hlen.
  { destruct (structurallyMatches_decompose delim parts input Hshape)
      as (texts & Hshapes & Hjoin).
    rewrite (Forall2_length Hshapes).
    destruct texts as [|t texts]; [cbn; lia|].
    apply (split_at_least delim Hdelim (JsString.length input)); 
      [lia | discriminate | exact Hjoin]. }
  assert (forall i, i < length parts ->
                    exists piece, array_get (split input delim) i = VStr piece) as Hget.
  { intros i Hi. unfold array_get.
    destruct (nth_error (split input delim) i) as [piece|] eqn:Hnth;
      [now exists piece|].
    apply nth_error_None in Hnth. lia. }
  split; [exact Hlen|]. split; [exact Hget|].
  intros i Hin. rewrite refineTemplateLiteral_spec, Hshape in Hin.
  assert (In (EvSafeParse i VUndefined)
             (safeParseEvents 0 (length parts) (split input delim))) as Hev.
  { destruct (forallb success _); cbn [trace fst] in Hin; [|exact Hin].
    apply in_app_or in Hin as [Hin|[Hin|[]]]; [exact Hin | discriminate]. }
  unfold safeParseEvents in Hev. apply in_map_iff in Hev as (k & Heq & Hk).
  apply in_seq in Hk. injection Heq as -> Hundef.
  destruct (Hget i ltac:(lia)) as [piece Hpiece]. congruence.
Qed.

Lemma every_validator_gets_a_piece_witness :
  "|" <> ""
  /\ structurallyMatches [zString; zString] "|" "a|b|c" = true
  /\ length [zString; zString] <= length (split "a|b|c" "|")
  /\ (forall i, i < length [zString; zString] ->
                exists piece, array_get (split "a|b|c" "|") i = VStr piece)
  /\ forall i,
       ~ In (EvSafeParse i VUndefined)
            (trace (refineTemplateLiteral [zString; zString] "|" alwaysTrue
                      noParams noCheckParams "a|b|c")).
Proof.
  assert ("|" <> "") as Hdelim by discriminate.
  assert (structurallyMatches [zString; zString] "|" "a|b|c" = true) as Hshape
    by reflexivity.
  split; [exact Hdelim|]. split; [exact Hshape|].
  exact (every_validator_gets_a_piece [zString; zString] "|" alwaysTrue
           noParams noCheckParams "a|b|c" Hdelim Hshape).
Defined.











(** ** The predicate of [play.ts] *)

(** [verify] never throws on a pair of numbers. It accepts every day up to
    29 and no day beyond 31 whatever the month is, it asks for no lower bound
    on the day and no range of the month, and with a day it accepts every
    earlier day of the same month. *)
Theorem verify_bounds :
  forall day month : Z,
  exists accepted : bool,
    verify [VNum day; VNum month] = Normal accepted
    /\ ((day <= 29)%Z -> accepted = true)
    /\ (accepted = true -> (day <= 31)%Z)
    /\ (forall earlier : Z,
           (earlier <= day)%Z -> accepted = true ->
           verify [VNum earlier; VNum month] = Normal true).
Proof.
  intros day month. cbn [verify].
  destruct (existsb (Z.eqb month) [4; 6; 9; 11]%Z);
    [|destruct (month =? 2)%Z];
    eexists; (split; [reflexivity|]); repeat split;
    try (intros; apply Z.leb_le; lia);
    try (intros H; apply Z.leb_le in H; lia);
    intros earlier Hle H; apply Z.leb_le in H; f_equal; apply Z.leb_le; lia.
Qed.

(** ** The schema of [play.ts] *)

(** [DateSchema] accepts no input at all: its two segment validators are
    number schemas, which take no string, so an input either lacks the shape
    of two numbers around a comma or fails at its first segment; [verify] is
    never called, and ["7,11"], marked valid in [play.ts], is rejected with the
    error configured for the predicate. *)
Theorem DateSchema_rejects_every_input :
  forall input : string,
    (exists issues, result (DateSchema input) = Normal (Failure issues))
    /\ (forall values, ~ In (EvCheck values) (trace (DateSchema input)))
    /\ result (DateSchema "7,11")
       = Normal (Failure [mkIssue "custom" (Some "Verify failed!") []]).
Proof.
  intros input. unfold DateSchema. rewrite refineTemplateLiteral_spec.
  split; [|split; [|reflexivity]];
    (destruct (structurallyMatches [DaySchema; MonthSchema] "," input);
     [rewrite (some_segment_fails [DaySchema; MonthSchema] "," input 0 DaySchema eq_refl)
       by (unfold array_get; now destruct (nth_error (split input ",") 0))|]).
  - eexists. reflexivity.
  - eexists. reflexivity.
  - intros values. apply safeParseEvents_no_check.
  - intros values [].
Qed.
